(** * Document summarizer: chunk-and-combine pipeline and Q&A session

    A shallow embedding of [advanced_summarizer.py] and [document_qa.py].

    - Python [str] is a sequence of Unicode code points: [list N].
    - Python [int] is [Z]; Python [float] is IEEE-754 binary64, i.e. the
      primitive [float] of the kernel.
    - The OpenAI client is the outside world: every call to
      [client.chat.completions.create] asks a [service] for a [reply], and is
      recorded in a call log threaded through the program by a state monad.
    - [print] statements are not modelled. *)

From Stdlib Require Import ZArith NArith List Bool Lia String Ascii.
From Stdlib Require Import Numbers.DecimalString.
From Stdlib Require Import Floats.PrimFloat Floats.FloatOps Floats.SpecFloat.
Import ListNotations.

Set Warnings "-inexact-float".
Local Open Scope Z_scope.

(** ** Strings *)

Module Str.

Definition char := N.
Definition str := list char.

(** Line feed, and the blank-line separator ['\n\n']. *)
Definition nl : char := 10%N.
Definition nn : str := [nl; nl].

(** A literal of the source, as code points. *)
Definition lit (s : string) : str := map N_of_ascii (list_ascii_of_string s).

(** [len(s)], for a string and for a list. *)
Definition len {A} (s : list A) : Z := Z.of_nat (List.length s).

(** Truth value of a string: [if s:] holds when [s] is not empty. *)
Definition truthy (s : str) : bool :=
  match s with
  | [] => false
  | _ :: _ => true
  end.

(** [str.isspace] on one code point (CPython's [_PyUnicode_IsWhitespace]). *)
Definition isspace (c : char) : bool :=
  ((9 <=? c) && (c <=? 13) || (28 <=? c) && (c <=? 32)
   || (c =? 133) || (c =? 160) || (c =? 5760)
   || (8192 <=? c) && (c <=? 8202)
   || (c =? 8232) || (c =? 8233) || (c =? 8239) || (c =? 8287)
   || (c =? 12288))%N.

(** [s.lstrip()] and [s.rstrip()]: without the whitespace at the left end,
    at the right end. *)
Fixpoint lstrip (s : str) : str :=
  match s with
  | [] => []
  | c :: s' => if isspace c then lstrip s' else s
  end.

Fixpoint rstrip (s : str) : str :=
  match s with
  | [] => []
  | c :: s' =>
      match rstrip s' with
      | [] => if isspace c then [] else [c]
      | t => c :: t
      end
  end.

(** [s.strip()] *)
Definition strip (s : str) : str := rstrip (lstrip s).

(** [sep.join(parts)] *)
Fixpoint join (sep : str) (parts : list str) : str :=
  match parts with
  | [] => []
  | [p] => p
  | p :: rest => p ++ sep ++ join sep rest
  end.

(** Put one more character in front of the first piece of a split. *)
Definition cons_head (c : char) (pieces : list str) : list str :=
  match pieces with
  | [] => [[c]]
  | p :: rest => (c :: p) :: rest
  end.

(** [s.split('\n\n')]: the pieces between the occurrences of the separator,
    found from left to right without overlap. *)
Fixpoint split_nn (s : str) : list str :=
  match s with
  | [] => [[]]
  | c :: s' =>
      match s' with
      | [] => [[c]]
      | d :: s'' =>
          if ((c =? nl) && (d =? nl))%N then [] :: split_nn s''
          else cons_head c (split_nn s')
      end
  end.

(** [s.split()]: the maximal runs of characters that are not whitespace. *)
Fixpoint split_ws (s : str) : list str :=
  match s with
  | [] => []
  | c :: s' =>
      if isspace c then split_ws s'
      else
        match s' with
        | [] => [[c]]
        | d :: _ =>
            if isspace d then [c] :: split_ws s'
            else cons_head c (split_ws s')
        end
  end.

(** [s[:n]] for [n >= 0]. *)
Definition prefix (n : Z) (s : str) : str := firstn (Z.to_nat n) s.

(** [str(i)] for an [int]. *)
Definition of_int (i : Z) : str := lit (NilZero.string_of_int (Z.to_int i)).

End Str.
Import Str.

(** ** The chunker *)

(** One turn of the loop of [chunk_text], on the pair
    [(chunks, current_chunk)]. *)
Definition chunk_step (chunk_size : Z) (st : list str * str) (paragraph : str)
  : list str * str :=
  let '(chunks, current_chunk) := st in
  if (len current_chunk + len paragraph >? chunk_size) && truthy current_chunk
  then (chunks ++ [strip current_chunk], paragraph)
  else (chunks,
        current_chunk ++
          (if truthy current_chunk then nn ++ paragraph else paragraph)).

Definition chunk_text (text : str) (chunk_size : Z) : list str :=
  let paragraphs := split_nn text in
  let '(chunks, current_chunk) :=
    fold_left (chunk_step chunk_size) paragraphs ([], []) in
  if truthy current_chunk then chunks ++ [strip current_chunk] else chunks.

(** The default [chunk_size=3000]. *)
Definition chunk_text_default (text : str) : list str := chunk_text text 3000.

(** ** The completion service and the call log *)

(** The keyword arguments of [client.chat.completions.create]: the model, the
    system and the user message, the temperature and the token limit. *)
Record request := {
  model : str;
  system_content : str;
  user_content : str;
  temperature : float;
  max_tokens : Z
}.

(** What the code reads of a response: [choices[0].message.content] and the
    three counters of [usage]. *)
Record completion := {
  content : str;
  prompt_tokens : Z;
  completion_tokens : Z;
  total_tokens : Z
}.

(** A call returns a response or raises; [Raised e] carries [str(e)]. *)
Inductive reply :=
| Completed (c : completion)
| Raised (e : str).

(** The place in the source a call is made from. *)
Inductive site :=
| ExtractKeyInfo
| DirectSummary
| SummarizeChunk
| CombineSummaries
| AnswerQuestion.

Record event := {
  at_site : site;
  sent : request;
  got : reply
}.

(** The outside world: the reply to the [n]-th call of a run, which may depend
    on the request. *)
Definition service := nat -> request -> reply.

(** The state of a run: the calls made so far, oldest first, and the module's
    global variables. *)
Record world (G : Type) := {
  calls : list event;
  globals : G
}.
Arguments calls {G} _.
Arguments globals {G} _.
Arguments Build_world {G} _ _.

Definition M (G A : Type) : Type := service -> world G -> A * world G.

Definition ret {G A} (a : A) : M G A := fun _ w => (a, w).

Definition bind {G A B} (m : M G A) (k : A -> M G B) : M G B :=
  fun sv w => let '(a, w') := m sv w in k a sv w'.

Declare Scope monad_scope.
Delimit Scope monad_scope with monad.
Notation "x <- m ;; k" := (bind m (fun x => k))
  (at level 61, m at next level, right associativity) : monad_scope.
Notation "' pat <- m ;; k" := (bind m (fun x => match x with pat => k end))
  (at level 61, pat pattern, m at next level, right associativity)
  : monad_scope.

Definition get_globals {G} : M G G := fun _ w => (globals w, w).

Definition put_globals {G} (g : G) : M G unit :=
  fun _ w => (tt, Build_world (calls w) g).

(** [client.chat.completions.create(...)] *)
Definition create {G} (s : site) (rq : request) : M G reply :=
  fun sv w =>
    let r := sv (List.length (calls w)) rq in
    (r, Build_world (calls w ++ [Build_event s rq r]) (globals w)).

(** ** Cost of a call *)

(** [float(i)], rounded to nearest. *)
Definition float_of_int (i : Z) : float :=
  SF2Prim (binary_normalize prec emax i 0 false).

(** [(usage.prompt_tokens / 1000) * 0.00015 +
     (usage.completion_tokens / 1000) * 0.0006].
    For token counts below [2^53], [i / 1000] is [float(i) / 1000.0]. *)
Definition usage_cost (c : completion) : float :=
  ((float_of_int (prompt_tokens c) / 1000) * 0.00015
   + (float_of_int (completion_tokens c) / 1000) * 0.0006)%float.

(** The dictionary a wrapper returns: on success the text (under the key
    ['summary'], ['extraction'] or ['answer']), ['tokens'] and ['cost'];
    on failure ['error']. *)
Inductive call_result :=
| Success (text : str) (tokens : Z) (cost : float)
| Failure (error : str).

(** The body shared by the [try] blocks of the wrappers, after the call. *)
Definition result_of (r : reply) : call_result :=
  match r with
  | Completed c => Success (content c) (total_tokens c) (usage_cost c)
  | Raised e => Failure e
  end.

Definition success (r : call_result) : bool :=
  match r with
  | Success _ _ _ => true
  | Failure _ => false
  end.

(** ** The wrappers of [advanced_summarizer.py] *)

Definition lines (ls : list str) : str := join [nl] ls.

Definition gpt_4o_mini : str := lit "gpt-4o-mini".

Definition summarize_chunk_prompt (chunk : str) (chunk_number total_chunks : Z)
  : str :=
  lines
    [ lit "Summarize this section (part " ++ of_int chunk_number ++ lit " of "
        ++ of_int total_chunks ++ lit ") of a document.";
      lit "Focus on key points, important data, and main ideas.";
      lit "Keep it concise (3-5 sentences).";
      [];
      lit "Text:";
      chunk ].

Definition summarize_chunk_request (chunk : str) (chunk_number total_chunks : Z)
  : request :=
  {| model := gpt_4o_mini;
     system_content := lit "You are summarizing a section of a larger document. Be concise and focus on key information.";
     user_content := summarize_chunk_prompt chunk chunk_number total_chunks;
     temperature := 0.4;
     max_tokens := 200 |}.

Definition summarize_chunk {G} (chunk : str) (chunk_number total_chunks : Z)
  : M G call_result :=
  (response <- create SummarizeChunk
     (summarize_chunk_request chunk chunk_number total_chunks) ;;
   ret (result_of response))%monad.

Definition combine_summaries_prompt (chunk_summaries : list str) : str :=
  let combined_text := join nn chunk_summaries in
  lines
    [ lit "Here are summaries of different sections of a document.";
      lit "Combine them into one coherent, comprehensive summary.";
      lit "Remove redundancy and organize logically.";
      lit "Keep it 2-4 paragraphs.";
      [];
      lit "Section summaries:";
      combined_text ].

Definition combine_summaries_request (chunk_summaries : list str) : request :=
  {| model := gpt_4o_mini;
     system_content := lit "You are creating a final summary by combining section summaries.";
     user_content := combine_summaries_prompt chunk_summaries;
     temperature := 0.5;
     max_tokens := 500 |}.

Definition combine_summaries {G} (chunk_summaries : list str)
  : M G call_result :=
  (response <- create CombineSummaries
     (combine_summaries_request chunk_summaries) ;;
   ret (result_of response))%monad.

Definition quote : str := [34%N].

Definition extract_key_info_prompt (text : str) : str :=
  lines
    [ lit "Extract key information from this document:";
      [];
      lit "1. Important dates (if any)";
      lit "2. Key numbers/statistics";
      lit "3. Action items or recommendations";
      lit "4. Main entities (people, companies, locations)";
      [];
      lit "Format as a structured list. If any category has no relevant info, write "
        ++ quote ++ lit "None found" ++ quote ++ lit ".";
      [];
      lit "Document:";
      prefix 8000 text ].

Definition extract_key_info_request (text : str) : request :=
  {| model := gpt_4o_mini;
     system_content := lit "You extract structured information from documents.";
     user_content := extract_key_info_prompt text;
     temperature := 0.3;
     max_tokens := 400 |}.

Definition extract_key_info {G} (text : str) : M G call_result :=
  (response <- create ExtractKeyInfo (extract_key_info_request text) ;;
   ret (result_of response))%monad.

(** ** The orchestrator *)

(** The dictionary [advanced_summarize] returns. *)
Record pipeline_result := {
  summary : str;
  key_info : str;
  total_cost : float;
  chunks_processed : Z;
  original_words : Z
}.

Definition direct_prompt : str :=
  lines
    [ lit "Provide a comprehensive summary of this document.";
      lit "Include: main topic, key points, important details, and conclusions.";
      lit "Format: 3-4 paragraphs." ].

Definition direct_request (text : str) : request :=
  {| model := gpt_4o_mini;
     system_content := lit "You are an expert document summarizer.";
     user_content := direct_prompt ++ nn ++ lit "Document:" ++ [nl] ++ text;
     temperature := 0.5;
     max_tokens := 600 |}.

(** The loop [for i, chunk in enumerate(chunks, 1)], from index [i] on, with
    the variables [chunk_summaries] and [total_cost] it updates. *)
Fixpoint summarize_chunks {G} (total_chunks : Z) (i : Z) (chunks : list str)
  (chunk_summaries : list str) (total_cost : float)
  : M G (list str * float) :=
  match chunks with
  | [] => ret (chunk_summaries, total_cost)
  | chunk :: rest =>
      (result <- summarize_chunk chunk i total_chunks ;;
       match result with
       | Success summary _ cost =>
           summarize_chunks total_chunks (i + 1) rest
             (chunk_summaries ++ [summary]) (total_cost + cost)%float
       | Failure _ =>
           summarize_chunks total_chunks (i + 1) rest
             chunk_summaries total_cost
       end)%monad
  end.

(** The final dictionary. [chunks] is only read on the long path; on the
    short path the variable is unbound and [[]] stands for it. *)
Definition prepare_result (final_summary : str)
  (extraction_result : call_result) (total_cost : float) (chunks : list str)
  (char_count word_count : Z) : pipeline_result :=
  {| summary := final_summary;
     key_info :=
       match extraction_result with
       | Success extraction _ _ => extraction
       | Failure _ => lit "Extraction failed"
       end;
     total_cost := total_cost;
     chunks_processed := if char_count >=? 12000 then len chunks else 1;
     original_words := word_count |}.

(** [advanced_summarize(text)]; [None] is Python's [None]. *)
Definition advanced_summarize {G} (text : str) : M G (option pipeline_result) :=
  let word_count := len (split_ws text) in
  let char_count := len text in
  let total_cost := 0%float in
  (extraction_result <- extract_key_info text ;;
   let total_cost :=
     match extraction_result with
     | Success _ _ cost => (total_cost + cost)%float
     | Failure _ => total_cost
     end in
   if char_count <? 12000 then
     response <- create DirectSummary (direct_request text) ;;
     match response with
     | Completed c =>
         let summary := content c in
         let cost := usage_cost c in
         let total_cost := (total_cost + cost)%float in
         let final_summary := summary in
         ret (Some (prepare_result final_summary extraction_result total_cost
                      [] char_count word_count))
     | Raised _ => ret None
     end
   else
     let chunks := chunk_text text 10000 in
     '(chunk_summaries, total_cost) <-
        summarize_chunks (len chunks) 1 chunks [] total_cost ;;
     match chunk_summaries with
     | [] => ret None
     | first :: _ =>
         if len chunks >? 1 then
           combine_result <- combine_summaries chunk_summaries ;;
           match combine_result with
           | Success final_summary _ cost =>
               ret (Some (prepare_result final_summary extraction_result
                            (total_cost + cost)%float chunks char_count
                            word_count))
           | Failure _ =>
               let final_summary := join nn chunk_summaries in
               ret (Some (prepare_result final_summary extraction_result
                            total_cost chunks char_count word_count))
           end
         else
           let final_summary := first in
           ret (Some (prepare_result final_summary extraction_result
                        total_cost chunks char_count word_count))
     end)%monad.

(** A run of the summarizer from an empty call log: what it returns and the
    calls it made. *)
Record run := {
  returned : option pipeline_result;
  call_log : list event
}.

Definition run_summarize (sv : service) (text : str) : run :=
  let '(r, w) := advanced_summarize text sv (Build_world [] tt) in
  {| returned := r; call_log := calls w |}.

(** ** The Q&A session of [document_qa.py] *)

Module QA.

(** The global [current_document]. *)
Record document := {
  text : str;
  filename : str;
  word_count : Z
}.

(** The global [session_stats]. *)
Record stats := {
  questions_asked : Z;
  total_cost : float
}.

Record session := {
  current_document : document;
  session_stats : stats
}.

(** At import: no document, no question asked. *)
Definition initial : session :=
  {| current_document := {| text := []; filename := []; word_count := 0 |};
     session_stats := {| questions_asked := 0; total_cost := 0%float |} |}.

Definition question_prompt (question text : str) : str :=
  lines
    [ lit "Based on the document below, answer this question:";
      [];
      lit "Question: " ++ question;
      [];
      lit "Document:";
      text;
      [];
      lit "Instructions:";
      lit "- Answer based ONLY on information in the document";
      lit "- If the answer isn't in the document, say " ++ quote
        ++ lit "This information is not in the document" ++ quote;
      lit "- Be specific and cite relevant parts when possible";
      lit "- Keep answer concise but complete" ].

Definition answer_question_request (question text : str) : request :=
  {| model := gpt_4o_mini;
     system_content := lit "You answer questions based on provided documents. Be accurate and cite the document.";
     user_content := question_prompt question text;
     temperature := 0.3;
     max_tokens := 400 |}.

Definition answer_question (question : str) : M session call_result :=
  (g <- get_globals ;;
   if negb (truthy (text (current_document g))) then
     ret (Failure (lit "No document loaded! Please load a document first."))
   else
     let text := prefix 30000 (text (current_document g)) in
     response <- create AnswerQuestion (answer_question_request question text) ;;
     match response with
     | Completed c =>
         let answer := content c in
         let tokens := total_tokens c in
         let cost := usage_cost c in
         g <- get_globals ;;
         let st := session_stats g in
         let st := {| questions_asked := questions_asked st + 1;
                      total_cost := total_cost st |} in
         let st := {| questions_asked := questions_asked st;
                      total_cost := (total_cost st + cost)%float |} in
         _ <- put_globals {| current_document := current_document g;
                             session_stats := st |} ;;
         ret (Success answer tokens cost)
     | Raised e => ret (Failure e)
     end)%monad.

(** One question asked in session [g], from an empty call log: the returned
    dictionary, the globals afterwards and the calls made. *)
Record asked := {
  answered : call_result;
  session_after : session;
  qa_log : list event
}.

Definition ask (sv : service) (g : session) (question : str) : asked :=
  let '(r, w) := answer_question question sv (Build_world [] g) in
  {| answered := r; session_after := globals w; qa_log := calls w |}.

End QA.

(** ** Reading the call log *)

Definition site_eqb (a b : site) : bool :=
  match a, b with
  | ExtractKeyInfo, ExtractKeyInfo
  | DirectSummary, DirectSummary
  | SummarizeChunk, SummarizeChunk
  | CombineSummaries, CombineSummaries
  | AnswerQuestion, AnswerQuestion => true
  | _, _ => false
  end.

(** The calls made from one place. *)
Definition calls_at (s : site) (log : list event) : list event :=
  filter (fun e => site_eqb (at_site e) s) log.

Definition succeeded (e : event) : bool :=
  match got e with
  | Completed _ => true
  | Raised _ => false
  end.

(** The calls that returned a response. *)
Definition successes (log : list event) : list event := filter succeeded log.

(** The texts of the responses, in call order. *)
Definition texts (log : list event) : list str :=
  flat_map (fun e => match got e with
                     | Completed c => [content c]
                     | Raised _ => []
                     end) log.

(** The costs of the calls that returned a response, in call order. *)
Definition costs (log : list event) : list float :=
  flat_map (fun e => match got e with
                     | Completed c => [usage_cost c]
                     | Raised _ => []
                     end) log.

(** The sum of a list of costs, accumulated from [0.0] in list order. *)
Definition accumulate (cs : list float) : float :=
  fold_left PrimFloat.add cs 0%float.

Definition combiner_called (log : list event) : bool :=
  existsb (fun e => site_eqb (at_site e) CombineSummaries) log.

(** Some summarization call, direct or of a chunk, returned a response. *)
Definition summarized (log : list event) : bool :=
  existsb (fun e => (site_eqb (at_site e) DirectSummary
                     || site_eqb (at_site e) SummarizeChunk) && succeeded e)
    log.

(** [c * n] for a one-character string [c]. *)
Definition copies (c : char) (n : Z) : str := repeat c (Z.to_nat n).

(** The calls the loop over the chunks makes, when the log already holds [n]
    calls: one per chunk, in order. *)
Fixpoint chunk_events (sv : service) (n : nat) (total_chunks i : Z)
  (chunks : list str) : list event :=
  match chunks with
  | [] => []
  | chunk :: rest =>
      let rq := summarize_chunk_request chunk i total_chunks in
      Build_event SummarizeChunk rq (sv n rq)
        :: chunk_events sv (S n) total_chunks (i + 1) rest
  end.

(** The first call of a run of the summarizer: the extraction. *)
Definition extraction_event (sv : service) (text : str) : event :=
  let rq := extract_key_info_request text in
  Build_event ExtractKeyInfo rq (sv 0%nat rq).

(** [total_cost] after the extraction step. *)
Definition cost_after_extraction (r : reply) : float :=
  match result_of r with
  | Success _ _ cost => (0 + cost)%float
  | Failure _ => 0%float
  end.

(** ** Concrete services and documents *)

Definition sample_completion (s : str) : completion :=
  {| content := s;
     prompt_tokens := 1000;
     completion_tokens := 100;
     total_tokens := 1100 |}.

(** A service that raises at the calls numbered in [down] and answers the
    [n]-th call with the text [Sn] otherwise. *)
Definition answers_except (down : list nat) : service :=
  fun n _ =>
    if existsb (Nat.eqb n) down then Raised (lit "timeout")
    else Completed (sample_completion (lit "S" ++ of_int (Z.of_nat n))).

(** Two paragraphs of 6000 characters: 12002 characters, two chunks. *)
Definition two_paragraphs : str := copies 97%N 6000 ++ nn ++ copies 98%N 6000.

(** One paragraph of exactly 12000 characters: one chunk. *)
Definition one_paragraph : str := copies 97%N 12000.

(** One paragraph of 11999 characters. *)
Definition under_threshold : str := copies 97%N 11999.

Definition greeting : str := lit "hello".

(** A session with the document [hello] loaded, two questions asked so
    far. *)
Definition loaded_session : QA.session :=
  {| QA.current_document :=
       {| QA.text := greeting; QA.filename := lit "hello.txt";
          QA.word_count := 1 |};
     QA.session_stats :=
       {| QA.questions_asked := 2; QA.total_cost := 0.5%float |} |}.

(** ** Paragraphs and groups of paragraphs *)

(** Total length of a list of paragraphs, joins not counted. *)
Definition sum_len (ps : list str) : Z :=
  fold_right (fun p n => len p + n) 0 ps.

(** The non-empty paragraphs of a text, up to the whitespace at their
    boundaries: the pieces between blank-line separators, stripped, the
    empty ones left out. Two texts are paragraph-equivalent, in the words of
    the specification, when they have the same [paragraphs]. *)
Definition paragraphs (text : str) : list str :=
  filter truthy (map strip (split_nn text)).

(** The loop of [chunk_text] again, keeping the paragraphs of a chunk apart
    instead of joining them: the pair [(groups, current_group)]. *)
Definition group_step (chunk_size : Z) (st : list (list str) * list str)
  (paragraph : str) : list (list str) * list str :=
  let '(groups, current_group) := st in
  let current_chunk := join nn current_group in
  if (len current_chunk + len paragraph >? chunk_size) && truthy current_chunk
  then (groups ++ [current_group], [paragraph])
  else (groups,
        if truthy current_chunk then current_group ++ [paragraph]
        else [paragraph]).

Definition final_groups (st : list (list str) * list str)
  : list (list str) :=
  let '(groups, current_group) := st in
  if truthy (join nn current_group) then groups ++ [current_group]
  else groups.

Definition chunk_groups (text : str) (chunk_size : Z) : list (list str) :=
  final_groups (fold_left (group_step chunk_size) (split_nn text) ([], [])).

(** The chunk a group stands for. *)
Definition strip_join (g : list str) : str := strip (join nn g).

(** What [chunk_text] appends when the loop is over. *)
Definition flush (st : list str * str) : list str :=
  let '(chunks, current_chunk) := st in
  if truthy current_chunk then chunks ++ [strip current_chunk] else chunks.

(** The non-empty paragraphs among [ps], stripped. *)
Definition clean (ps : list str) : list str := filter truthy (map strip ps).

(** The pieces of [a ++ b] from the pieces [A] of [a] and [B] of [b], when no
    separator sits across the seam: the last piece of [A] and the first of
    [B] become one. *)
Fixpoint glue (A B : list str) : list str :=
  match A with
  | [] => B
  | a :: A' =>
      match A' with
      | [] =>
          match B with
          | [] => [a]
          | b :: B' => (a ++ b) :: B'
          end
      | _ :: _ => a :: glue A' B
      end
  end.

(** The string ends, or starts, with a line feed. *)
Fixpoint ends_nl (s : str) : bool :=
  match s with
  | [] => false
  | c :: s' =>
      match s' with
      | [] => (c =? nl)%N
      | _ :: _ => ends_nl s'
      end
  end.

Definition starts_nl (s : str) : bool :=
  match s with
  | [] => false
  | c :: _ => (c =? nl)%N
  end.

(** Made of whitespace only. *)
Definition all_ws (s : str) : bool := forallb isspace s.

(** A list of pieces as [split_nn] yields them: no piece holds a separator,
    and no piece but the last ends with a line feed. *)
Fixpoint good (l : list str) : Prop :=
  match l with
  | [] => True
  | p :: l' => split_nn p = [p] /\ (l' = [] \/ ends_nl p = false) /\ good l'
  end.

(** ** Loading a document for questions *)

(** Modelled from the spec: [read_document] of the module [text_extraction],
    which is not among the sources. It returns a dictionary with [success],
    and with [text] and [word_count] on success, [error] on failure. The
    function itself is a parameter of what follows. *)
Inductive read_result :=
| ReadOk (text : str) (word_count : Z)
| ReadFailed (error : str).

Definition slash : char := 47%N.

(** Whether [p] holds a [/], and what follows the last one (all of [p] when
    there is none). *)
Fixpoint after_last_slash (p : str) : bool * str :=
  match p with
  | [] => (false, [])
  | c :: p' =>
      let '(found, tail) := after_last_slash p' in
      if found then (true, tail)
      else if (c =? slash)%N then (true, tail)
      else (false, c :: tail)
  end.

(** [os.path.basename(p)] on a POSIX system: [p[p.rfind('/') + 1:]]. *)
Definition basename (p : str) : str := snd (after_last_slash p).

(** [load_document_for_qa(file_path)] *)
Definition load_document_for_qa (read_document : str -> read_result)
  (file_path : str) : M QA.session bool :=
  let result := read_document file_path in
  match result with
  | ReadFailed _ => ret false
  | ReadOk text word_count =>
      (g <- get_globals ;;
       _ <- put_globals
              {| QA.current_document :=
                   {| QA.text := text;
                      QA.filename := basename file_path;
                      QA.word_count := word_count |};
                 QA.session_stats := QA.session_stats g |} ;;
       ret true)%monad
  end.

(** ** The question loop *)

(** [a == b] on strings. *)
Fixpoint str_eqb (a b : str) : bool :=
  match a, b with
  | [], [] => true
  | x :: a', y :: b' => (x =? y)%N && str_eqb a' b'
  | _, _ => false
  end.

(** How the loop of [main] ends: by [break] on a quit command, or with the
    [EOFError] that [input] raises when nothing is left to read. *)
Inductive loop_end :=
| Stopped
| InputExhausted.

Section QuestionLoop.

(** [str.lower] follows the Unicode case tables, which are no part of the
    sources: it is a parameter. *)
Variable lower : str -> str.

(** [question.lower() in ['quit', 'exit', 'q']] *)
Definition is_quit (question : str) : bool :=
  existsb (str_eqb (lower question)) [lit "quit"; lit "exit"; lit "q"].

(** [question.lower() == 'stats'] *)
Definition is_stats (question : str) : bool :=
  str_eqb (lower question) (lit "stats").

(** The [while True] loop of [main] in [document_qa.py], reading the lines
    [inputs] one by one. *)
Fixpoint question_loop (inputs : list str) : M QA.session loop_end :=
  match inputs with
  | [] => ret InputExhausted
  | line :: rest =>
      let question := strip line in
      if is_quit question then ret Stopped
      else if is_stats question then question_loop rest
      else if negb (truthy question) then question_loop rest
      else (_ <- QA.answer_question question ;; question_loop rest)%monad
  end.

(** The lines read before the first quit command, stripped. *)
Fixpoint before_quit (inputs : list str) : list str :=
  match inputs with
  | [] => []
  | line :: rest =>
      if is_quit (strip line) then [] else strip line :: before_quit rest
  end.

(** Those of them that are questions: not the [stats] command, not empty. *)
Definition questions (inputs : list str) : list str :=
  filter (fun q => negb (is_stats q) && truthy q) (before_quit inputs).

End QuestionLoop.

(** A session of the loop from an empty call log. *)
Record looped := {
  ended : loop_end;
  session_left : QA.session;
  loop_log : list event
}.

Definition run_loop (lower : str -> str) (sv : service) (g : QA.session)
  (inputs : list str) : looped :=
  let '(r, w) := question_loop lower inputs sv (Build_world [] g) in
  {| ended := r; session_left := globals w; loop_log := calls w |}.

(** [lower] on ASCII letters, other characters left alone: what [str.lower]
    does to a string of ASCII characters. *)
Definition ascii_lower (s : str) : str :=
  map (fun c => if ((65 <=? c) && (c <=? 90))%N then (c + 32)%N else c) s.

(** The session after a successful answer costing [cost]. *)
Definition count_answer (g : QA.session) (cost : float) : QA.session :=
  {| QA.current_document := QA.current_document g;
     QA.session_stats :=
       {| QA.questions_asked := QA.questions_asked (QA.session_stats g) + 1;
          QA.total_cost := (QA.total_cost (QA.session_stats g) + cost)%float |}
  |}.

(** The error of [answer_question] when no text is loaded. *)
Definition no_document : call_result :=
  Failure (lit "No document loaded! Please load a document first.").

(** ** Rows of a box on the terminal *)

(** What the display functions print is modelled as the list of the strings
    given to [print], in order. *)

Definition sp : char := 32%N.

(** The vertical bar of the box, U+2503. *)
Definition bar : char := 9475%N.

(** [s.split('\n')] *)
Fixpoint split_lines (s : str) : list str :=
  match s with
  | [] => [[]]
  | c :: s' =>
      if (c =? nl)%N then [] :: split_lines s'
      else cons_head c (split_lines s')
  end.

(** The format [{s:<width}]: [s], then spaces up to [width] characters. *)
Definition ljust (width : Z) (s : str) : str :=
  s ++ copies sp (width - len s).

(** The f-string with [{s:<66}] between a bar and a space on each side. *)
Definition box_row (s : str) : str :=
  [bar; sp] ++ ljust 66 s ++ [sp; bar].

(** The bar, [" " * 68], the bar. *)
Definition blank_row : str := [bar] ++ copies sp 68 ++ [bar].

(** One turn of the word-wrapping loop, on the rows printed so far and
    [current_line]. *)
Definition wrap_step (st : list str * str) (word : str) : list str * str :=
  let '(printed, current_line) := st in
  if len current_line + len word + 1 <=? 66
  then (printed, current_line ++ word ++ [sp])
  else (printed ++ [box_row (rstrip current_line)], word ++ [sp]).

(** The loop [for word in words] and the [if current_line:] after it. *)
Definition wrap_rows (words : list str) : list str :=
  let '(printed, current_line) := fold_left wrap_step words ([], []) in
  if truthy current_line then printed ++ [box_row (rstrip current_line)]
  else printed.

(** The rows for one line of the key information (and of [display_summary]):
    the line itself when it fits, its words wrapped otherwise. *)
Definition plain_line_rows (line : str) : list str :=
  if len line <=? 66 then [box_row line] else wrap_rows (split_ws line).

(** The rows for one line of a summary or an answer: a blank row for a line
    of whitespace, the rows of the line otherwise. *)
Definition line_rows (line : str) : list str :=
  if negb (truthy (strip line)) then [blank_row] else plain_line_rows line.

(** The body of the summary box of [display_advanced_summary], and of the
    answer box of [display_qa]. *)
Definition summary_rows (summary : str) : list str :=
  flat_map line_rows (split_lines summary).

(** The body of the key-information box of [display_advanced_summary]. *)
Definition key_info_rows (key_info : str) : list str :=
  flat_map plain_line_rows (split_lines key_info).

(** The rows of the question in [display_qa]: always wrapped. *)
Definition question_rows (question : str) : list str :=
  wrap_rows (split_ws question).

(** The wrapping loop again, keeping what goes between the bars. *)
Definition wrap_content_step (st : list str * str) (word : str)
  : list str * str :=
  let '(contents, current_line) := st in
  if len current_line + len word + 1 <=? 66
  then (contents, current_line ++ word ++ [sp])
  else (contents ++ [rstrip current_line], word ++ [sp]).

Definition wrap_finish (st : list str * str) : list str :=
  let '(contents, current_line) := st in
  if truthy current_line then contents ++ [rstrip current_line]
  else contents.

Definition wrap_contents (words : list str) : list str :=
  wrap_finish (fold_left wrap_content_step words ([], [])).

(** A word as [split_ws] yields it: not empty, no whitespace in it. *)
Definition is_word (w : str) : Prop :=
  w <> [] /\ forallb (fun c => negb (isspace c)) w = true.

(** ** [simple_summarizer.py] *)

(** [len(text) // 4] *)
Definition count_tokens_estimate (text : str) : Z := len text / 4.

(** [d.get(key, default)] on a dictionary with string keys, given as the
    list of its items. *)
Fixpoint dict_get {A} (d : list (str * A)) (key : str) (default : A) : A :=
  match d with
  | [] => default
  | (k, v) :: d' => if str_eqb k key then v else dict_get d' key default
  end.

Definition executive_prompt : str :=
  lines
    [ lit "Provide an executive summary of this document. ";
      lit "                       Include: main topic, key points (3-5), and conclusion.";
      lit "                       Format: 2-3 paragraphs, professional tone.";
      lit "                       Keep it concise but comprehensive." ].

Definition bullet_prompt : str :=
  lines
    [ lit "Summarize this document as bullet points.";
      lit "                    Include:";
      lit "                    - Main topic";
      lit "                    - Key findings (5-7 points)";
      lit "                    - Important numbers/statistics";
      lit "                    - Conclusions or recommendations";
      lit "                    Be clear and concise." ].

Definition detailed_prompt : str :=
  lines
    [ lit "Provide a detailed summary of this document.";
      lit "                      Include all major sections, key arguments, important data,";
      lit "                      and conclusions. Maintain the document's structure.";
      lit "                      Be thorough but don't reproduce the entire document." ].

Definition prompts : list (str * str) :=
  [ (lit "executive", executive_prompt);
    (lit "bullet", bullet_prompt);
    (lit "detailed", detailed_prompt) ].

(** The dictionary [summarize_document] returns: as the wrappers', with the
    key ['summary_type'] on success. *)
Inductive typed_summary :=
| Summarized (summary : str) (tokens : Z) (cost : float) (summary_type : str)
| NotSummarized (error : str).

(** The text that goes into the request: cut to 48000 characters when the
    estimate is above 12000 tokens. *)
Definition document_sent (text : str) : str :=
  let estimated_tokens := count_tokens_estimate text in
  if estimated_tokens >? 12000 then prefix 48000 text else text.

Definition summarize_document_request (text summary_type : str) : request :=
  let text := document_sent text in
  let prompt := dict_get prompts summary_type executive_prompt in
  {| model := gpt_4o_mini;
     system_content := lit "You are an expert document analyst and summarizer.";
     user_content := prompt ++ nn ++ lit "Document:" ++ [nl] ++ text;
     temperature := 0.5;
     max_tokens := 800 |}.

(** [summarize_document(text, summary_type)], with the completion service
    answering its one call. *)
Definition summarize_document (complete : request -> reply)
  (text summary_type : str) : typed_summary :=
  match complete (summarize_document_request text summary_type) with
  | Completed c =>
      Summarized (content c) (total_tokens c) (usage_cost c) summary_type
  | Raised e => NotSummarized e
  end.

(** * Properties *)

(** ** Examples *)

Example split_nn_three_line_feeds : split_nn [nl; nl; nl] = [[]; [nl]].
Proof. reflexivity. Qed.

Example split_ws_words :
  split_ws (lit "  ab c   def  ") = [lit "ab"; lit "c"; lit "def"].
Proof. reflexivity. Qed.

Example strip_both_ends : strip (lit "  a b " ++ [nl]) = lit "a b".
Proof. reflexivity. Qed.

Example of_int_decimal : of_int 0 = lit "0" /\ of_int 12 = lit "12".
Proof. split; reflexivity. Qed.

Example chunk_text_flushes :
  chunk_text (lit "ab" ++ nn ++ lit "cd") 2 = [lit "ab"; lit "cd"].
Proof. reflexivity. Qed.

Example chunk_text_joins :
  chunk_text (lit "ab" ++ nn ++ lit "cd") 4 = [lit "ab" ++ nn ++ lit "cd"].
Proof. reflexivity. Qed.

Example chunk_text_whitespace_chunk :
  chunk_text (lit "a" ++ nn ++ lit " " ++ nn ++ lit "b") 1
  = [lit "a"; []; lit "b"].
Proof. reflexivity. Qed.

Example usage_cost_sample :
  usage_cost (sample_completion []) = 0.00020999999999999998%float.
Proof. reflexivity. Qed.

(** ** The loop over the chunks *)

Lemma texts_app (l1 l2 : list event) : texts (l1 ++ l2) = texts l1 ++ texts l2.
Proof. unfold texts. now rewrite flat_map_app. Qed.

Lemma costs_app (l1 l2 : list event) : costs (l1 ++ l2) = costs l1 ++ costs l2.
Proof. unfold costs. now rewrite flat_map_app. Qed.

Lemma texts_cons (e : event) (l : list event) :
  texts (e :: l) = texts [e] ++ texts l.
Proof. exact (texts_app [e] l). Qed.

Lemma costs_cons (e : event) (l : list event) :
  costs (e :: l) = costs [e] ++ costs l.
Proof. exact (costs_app [e] l). Qed.

Lemma summarize_chunks_spec {G} (sv : service) (total_chunks : Z)
  (chunks : list str) :
  forall (i : Z) (acc : list str) (cost : float) (w : world G),
    summarize_chunks total_chunks i chunks acc cost sv w
    = ((acc ++ texts (chunk_events sv (List.length (calls w)) total_chunks i chunks),
        fold_left PrimFloat.add
          (costs (chunk_events sv (List.length (calls w)) total_chunks i chunks))
          cost),
       Build_world
         (calls w ++ chunk_events sv (List.length (calls w)) total_chunks i chunks)
         (globals w)).
Proof.
  induction chunks as [|chunk rest IH]; intros i acc cost w.
  - cbn. rewrite !app_nil_r. now destruct w.
  - simpl chunk_events. simpl summarize_chunks.
    unfold summarize_chunk, bind, create, ret.
    set (rq := summarize_chunk_request chunk i total_chunks).
    set (n := List.length (calls w)).
    rewrite texts_cons, costs_cons.
    unfold texts at 1, costs at 1. simpl flat_map.
    destruct (sv n rq) as [c|e] eqn:Hr; unfold result_of; cbv iota beta;
      rewrite IH; simpl calls; simpl globals;
      rewrite length_app, Nat.add_1_r; fold n;
      rewrite <- !app_assoc; simpl app; try rewrite fold_left_app; reflexivity.
Qed.

(** ** What a run of [advanced_summarize] does, path by path *)

Lemma run_summarize_short (sv : service) (text : str) :
  len text < 12000 ->
  run_summarize sv text =
    let e0 := extraction_event sv text in
    let e1 := Build_event DirectSummary (direct_request text)
                (sv 1%nat (direct_request text)) in
    {| returned :=
         match got e1 with
         | Completed c =>
             Some (prepare_result (content c) (result_of (got e0))
                     (cost_after_extraction (got e0) + usage_cost c)%float
                     [] (len text) (len (split_ws text)))
         | Raised _ => None
         end;
       call_log := [e0; e1] |}.
Proof.
  intros Hlen.
  unfold run_summarize, advanced_summarize, extract_key_info, bind, create, ret.
  cbn [calls globals List.length app].
  destruct (Z.ltb_spec (len text) 12000) as [_|H]; [|lia].
  unfold extraction_event, cost_after_extraction.
  cbn [calls globals List.length app got].
  destruct (sv 1%nat (direct_request text)) as [c|e]; reflexivity.
Qed.

Lemma run_summarize_long (sv : service) (text : str) :
  12000 <= len text ->
  run_summarize sv text =
    let chunks := chunk_text text 10000 in
    let e0 := extraction_event sv text in
    let evs := chunk_events sv 1%nat (len chunks) 1 chunks in
    let cost1 :=
      fold_left PrimFloat.add (costs evs) (cost_after_extraction (got e0)) in
    match texts evs with
    | [] => {| returned := None; call_log := e0 :: evs |}
    | first :: _ =>
        if len chunks >? 1 then
          let rq := combine_summaries_request (texts evs) in
          let r := sv (S (List.length evs)) rq in
          {| returned :=
               Some (match r with
                     | Completed c =>
                         prepare_result (content c) (result_of (got e0))
                           (cost1 + usage_cost c)%float chunks (len text)
                           (len (split_ws text))
                     | Raised _ =>
                         prepare_result (join nn (texts evs))
                           (result_of (got e0)) cost1 chunks (len text)
                           (len (split_ws text))
                     end);
             call_log := e0 :: evs ++ [Build_event CombineSummaries rq r] |}
        else
          {| returned :=
               Some (prepare_result first (result_of (got e0)) cost1 chunks
                       (len text) (len (split_ws text)));
             call_log := e0 :: evs |}
    end.
Proof.
  intros Hlen.
  unfold run_summarize, advanced_summarize, extract_key_info.
  unfold bind at 1 2. unfold create at 1. unfold ret at 1.
  cbn [calls globals List.length app].
  destruct (Z.ltb_spec (len text) 12000) as [H|_]; [lia|].
  unfold bind at 1. rewrite summarize_chunks_spec.
  unfold extraction_event, cost_after_extraction.
  cbn [calls globals List.length app got].
  set (evs := chunk_events sv 1%nat _ 1 _).
  set (e0 := Build_event ExtractKeyInfo _ _).
  destruct (texts evs) as [|first more] eqn:Ht.
  - reflexivity.
  - destruct (len (chunk_text text 10000) >? 1).
    + unfold combine_summaries, bind, create, ret.
      cbn [calls globals List.length app].
      destruct (sv (S (List.length evs)) _) as [c|e]; reflexivity.
    + reflexivity.
Qed.

(** ** Facts on the calls of the chunk loop *)

Lemma chunk_events_length (sv : service) (chunks : list str) :
  forall n total i,
    List.length (chunk_events sv n total i chunks) = List.length chunks.
Proof.
  induction chunks as [|c rest IH]; intros; simpl; [reflexivity|].
  now rewrite IH.
Qed.

Lemma chunk_events_sites (sv : service) (chunks : list str) :
  forall n total i,
    map at_site (chunk_events sv n total i chunks)
    = repeat SummarizeChunk (List.length chunks).
Proof.
  induction chunks as [|c rest IH]; intros; simpl; [reflexivity|].
  now rewrite IH.
Qed.

Lemma chunk_events_nth (sv : service) (chunks : list str) :
  forall n total i k chunk,
    nth_error chunks k = Some chunk ->
    option_map sent (nth_error (chunk_events sv n total i chunks) k)
    = Some (summarize_chunk_request chunk (i + Z.of_nat k) total).
Proof.
  induction chunks as [|c rest IH]; intros n total i k chunk Hk.
  - destruct k; discriminate.
  - destruct k as [|k].
    + inversion Hk; subst. simpl. now rewrite Z.add_0_r.
    + simpl in Hk. cbn [chunk_events nth_error].
      rewrite (IH _ _ _ _ _ Hk). do 2 f_equal. lia.
Qed.

Lemma calls_at_app (s : site) (l1 l2 : list event) :
  calls_at s (l1 ++ l2) = calls_at s l1 ++ calls_at s l2.
Proof. apply filter_app. Qed.

Lemma calls_at_all (s : site) (l : list event) :
  map at_site l = repeat s (List.length l) -> calls_at s l = l.
Proof.
  induction l as [|e l IH]; simpl; intros H; [reflexivity|].
  inversion H as [[He Hl]]. rewrite He.
  replace (site_eqb s s) with true by now destruct s.
  rewrite He in Hl. f_equal. now apply IH.
Qed.

Lemma calls_at_none (s s' : site) (l : list event) :
  site_eqb s' s = false ->
  map at_site l = repeat s' (List.length l) -> calls_at s l = [].
Proof.
  intros Hs. induction l as [|e l IH]; simpl; intros H; [reflexivity|].
  inversion H as [[He Hl]]. rewrite He, Hs. rewrite He in Hl. now apply IH.
Qed.

Lemma chunk_events_calls_at (sv : service) (chunks : list str) n total i :
  calls_at SummarizeChunk (chunk_events sv n total i chunks)
  = chunk_events sv n total i chunks.
Proof.
  apply calls_at_all. now rewrite chunk_events_sites, chunk_events_length.
Qed.

Lemma chunk_events_combiner (sv : service) (chunks : list str) n total i :
  combiner_called (chunk_events sv n total i chunks) = false.
Proof.
  revert n i. induction chunks as [|c rest IH]; intros; simpl; [reflexivity|].
  apply IH.
Qed.

Lemma combiner_called_app (l1 l2 : list event) :
  combiner_called (l1 ++ l2) = combiner_called l1 || combiner_called l2.
Proof. apply existsb_app. Qed.

Lemma texts_successes (l : list event) : texts (successes l) = texts l.
Proof.
  induction l as [|e l IH]; [reflexivity|].
  unfold successes, succeeded in *. simpl.
  destruct (got e) eqn:He; simpl; [rewrite He; simpl; now rewrite IH | exact IH].
Qed.

Lemma costs_successes (l : list event) : costs (successes l) = costs l.
Proof.
  induction l as [|e l IH]; [reflexivity|].
  unfold successes, succeeded in *. simpl.
  destruct (got e) eqn:He; simpl; [rewrite He; simpl; now rewrite IH | exact IH].
Qed.

Lemma texts_length (l : list event) :
  List.length (texts l) = List.length (successes l).
Proof.
  induction l as [|e l IH]; [reflexivity|].
  unfold successes, succeeded in *. simpl.
  destruct (got e); simpl; now rewrite IH.
Qed.

Lemma successes_nil_texts (l : list event) : successes l = [] -> texts l = [].
Proof.
  intros H. apply length_zero_iff_nil. rewrite texts_length, H. reflexivity.
Qed.

Lemma extraction_cost (sv : service) (text : str) :
  cost_after_extraction (got (extraction_event sv text))
  = accumulate (costs [extraction_event sv text]).
Proof.
  unfold cost_after_extraction, accumulate, costs, extraction_event. simpl.
  now destruct (sv 0%nat _).
Qed.

(** The log of a run on the long path, by the site of the calls. *)
Lemma long_run_chunk_calls (sv : service) (text : str) :
  12000 <= len text ->
  calls_at SummarizeChunk (call_log (run_summarize sv text))
  = chunk_events sv 1%nat (len (chunk_text text 10000)) 1
      (chunk_text text 10000).
Proof.
  intros H. rewrite (run_summarize_long sv text H). cbv zeta.
  set (evs := chunk_events _ _ _ _ _).
  assert (He : calls_at SummarizeChunk evs = evs)
    by apply chunk_events_calls_at.
  destruct (texts evs) as [|first more].
  - cbn [call_log]. unfold calls_at at 1. simpl filter. exact He.
  - destruct (len (chunk_text text 10000) >? 1); cbn [call_log].
    + change (extraction_event sv text :: evs ++ ?t)
        with ([extraction_event sv text] ++ evs ++ t).
      rewrite !calls_at_app, He. simpl. apply app_nil_r.
    + unfold calls_at at 1. simpl filter. exact He.
Qed.

(** ** The orchestrator's claims *)

(** C2. On the long-document path, when no chunk summarization succeeds,
    [advanced_summarize] returns [None]: no result dictionary at all, and so
    none with an empty summary. *)
Theorem no_chunk_summary_no_result (sv : service) (text : str) :
  12000 <= len text ->
  successes (calls_at SummarizeChunk (call_log (run_summarize sv text))) = [] ->
  returned (run_summarize sv text) = None.
Proof.
  intros Hlen Hnone. apply successes_nil_texts in Hnone.
  rewrite (long_run_chunk_calls sv text Hlen) in Hnone.
  rewrite (run_summarize_long sv text Hlen). cbv zeta.
  now rewrite Hnone.
Qed.

Lemma no_chunk_summary_no_result_witness :
  12000 <= len two_paragraphs
  /\ successes
       (calls_at SummarizeChunk
          (call_log (run_summarize (answers_except [1; 2]%nat) two_paragraphs)))
     = []
  /\ returned (run_summarize (answers_except [1; 2]%nat) two_paragraphs) = None.
Proof.
  assert (H1 : 12000 <= len two_paragraphs) by (vm_compute; discriminate).
  assert (H2 : successes
                 (calls_at SummarizeChunk
                    (call_log
                       (run_summarize (answers_except [1; 2]%nat)
                          two_paragraphs))) = [])
    by (vm_compute; reflexivity).
  split; [exact H1 | split; [exact H2 |]].
  exact (no_chunk_summary_no_result (answers_except [1; 2]%nat) two_paragraphs
           H1 H2).
Defined.

(** C3. [advanced_summarize] routes on the character count against 12000.
    With 11999 characters or fewer it makes the extraction call and one direct
    summarization call, and a returned result reports [chunks_processed = 1].
    With 12000 characters or more it makes no direct call: after the
    extraction it summarizes the chunks of [chunk_text text 10000], one call
    per chunk in order, then calls the combiner at most once, and a returned
    result reports the number of chunks. *)
Theorem routing_by_character_count (sv : service) (text : str) :
  let r := run_summarize sv text in
  let chunks := chunk_text text 10000 in
  (len text <= 11999 ->
     map at_site (call_log r) = [ExtractKeyInfo; DirectSummary]
     /\ map sent (calls_at DirectSummary (call_log r)) = [direct_request text]
     /\ forall p, returned r = Some p -> chunks_processed p = 1)
  /\ (12000 <= len text ->
        calls_at DirectSummary (call_log r) = []
        /\ (exists tail,
              map at_site (call_log r)
              = ExtractKeyInfo :: repeat SummarizeChunk (List.length chunks)
                  ++ tail
              /\ (tail = [] \/ tail = [CombineSummaries]))
        /\ (forall k chunk,
              nth_error chunks k = Some chunk ->
              option_map sent
                (nth_error (calls_at SummarizeChunk (call_log r)) k)
              = Some (summarize_chunk_request chunk (1 + Z.of_nat k)
                        (len chunks)))
        /\ forall p, returned r = Some p -> chunks_processed p = len chunks).
Proof.
  cbv zeta. split.
  - intros Hlen. assert (Hlt : len text < 12000) by lia.
    rewrite (run_summarize_short sv text Hlt). cbv zeta. cbn [call_log returned].
    split; [reflexivity|]. split; [reflexivity|].
    cbn [got]. intros p.
    destruct (sv 1%nat (direct_request text)); [|discriminate].
    intros Hp. inversion Hp; subst p. unfold prepare_result. cbn [chunks_processed].
    destruct (Z.geb_spec (len text) 12000); [lia | reflexivity].
  - intros Hlen. split; [|split; [|split]].
    + rewrite (run_summarize_long sv text Hlen). cbv zeta.
      set (evs := chunk_events _ _ _ _ _).
      assert (He : calls_at DirectSummary evs = []).
      { apply (calls_at_none DirectSummary SummarizeChunk); [reflexivity|].
        unfold evs. now rewrite chunk_events_sites, chunk_events_length. }
      destruct (texts evs) as [|first more].
      * cbn [call_log]. unfold calls_at at 1. simpl filter. exact He.
      * destruct (len (chunk_text text 10000) >? 1); cbn [call_log].
        -- change (extraction_event sv text :: evs ++ ?t)
             with ([extraction_event sv text] ++ evs ++ t).
           rewrite !calls_at_app, He. reflexivity.
        -- unfold calls_at at 1. simpl filter. exact He.
    + rewrite (run_summarize_long sv text Hlen). cbv zeta.
      set (evs := chunk_events _ _ _ _ _).
      assert (He : map at_site evs
                   = repeat SummarizeChunk
                       (List.length (chunk_text text 10000)))
        by apply chunk_events_sites.
      destruct (texts evs) as [|first more].
      * exists []. cbn [call_log map]. rewrite He, app_nil_r. now split; [|left].
      * destruct (len (chunk_text text 10000) >? 1); cbn [call_log map].
        -- exists [CombineSummaries]. rewrite map_app, He. now split; [|right].
        -- exists []. rewrite He, app_nil_r. now split; [|left].
    + intros k chunk Hk. rewrite (long_run_chunk_calls sv text Hlen).
      now apply chunk_events_nth.
    + rewrite (run_summarize_long sv text Hlen). cbv zeta.
      intros p Hp.
      assert (Hge : (len text >=? 12000) = true)
        by (destruct (Z.geb_spec (len text) 12000); [reflexivity | lia]).
      destruct (texts _) as [|first more]; [discriminate|].
      destruct (len (chunk_text text 10000) >? 1); cbn [returned] in Hp.
      * destruct (sv _ _); inversion Hp; subst p; unfold prepare_result;
          cbn [chunks_processed]; now rewrite Hge.
      * inversion Hp; subst p; unfold prepare_result;
          cbn [chunks_processed]; now rewrite Hge.
Qed.

Lemma routing_by_character_count_witness :
  (len under_threshold <= 11999
   /\ map at_site (call_log (run_summarize (answers_except []) under_threshold))
      = [ExtractKeyInfo; DirectSummary])
  /\ (12000 <= len one_paragraph
      /\ calls_at DirectSummary
           (call_log (run_summarize (answers_except []) one_paragraph)) = []).
Proof.
  split.
  - assert (H : len under_threshold <= 11999) by (vm_compute; discriminate).
    split; [exact H|].
    apply (routing_by_character_count (answers_except []) under_threshold).
    exact H.
  - assert (H : 12000 <= len one_paragraph) by (vm_compute; discriminate).
    split; [exact H|].
    apply (routing_by_character_count (answers_except []) one_paragraph).
    exact H.
Defined.

(** C4. The [total_cost] of a returned result is the sum, accumulated from
    [0.0] in call order, of the costs of the calls of the run that returned a
    response (extraction, direct or per-chunk summarization, combination); a
    call that raised adds nothing. *)
Theorem total_cost_is_sum_of_successful_calls (sv : service) (text : str)
  (p : pipeline_result) :
  returned (run_summarize sv text) = Some p ->
  total_cost p = accumulate (costs (successes (call_log (run_summarize sv text)))).
Proof.
  rewrite costs_successes.
  destruct (Z.lt_ge_cases (len text) 12000) as [Hlen|Hlen].
  - rewrite (run_summarize_short sv text Hlen). cbv zeta.
    cbn [returned call_log got]. intros Hp.
    rewrite (costs_cons (extraction_event sv text)).
    unfold accumulate. rewrite fold_left_app. fold (accumulate (costs [extraction_event sv text])).
    rewrite <- extraction_cost.
    unfold costs. cbn [flat_map got]. revert Hp.
    destruct (sv 1%nat (direct_request text)) as [c|e]; [|discriminate].
    intros Hp. inversion Hp; subst p. reflexivity.
  - rewrite (run_summarize_long sv text Hlen). cbv zeta.
    set (evs := chunk_events _ _ _ _ _).
    set (e0 := extraction_event sv text).
    intros Hp.
    assert (Hacc : forall tail,
               accumulate (costs (e0 :: evs ++ tail))
               = fold_left PrimFloat.add (costs tail)
                   (fold_left PrimFloat.add (costs evs)
                      (cost_after_extraction (got e0)))).
    { intros tail. rewrite costs_cons, costs_app. unfold accumulate.
      rewrite !fold_left_app. fold (accumulate (costs [e0])).
      unfold e0. now rewrite <- extraction_cost. }
    destruct (texts evs) as [|first more]; [discriminate|].
    destruct (len (chunk_text text 10000) >? 1); cbn [returned call_log] in *.
    + rewrite Hacc.
      destruct (sv _ _) as [c|e]; inversion Hp; subst p; reflexivity.
    + rewrite <- (app_nil_r evs) at 1. rewrite Hacc.
      inversion Hp; subst p; reflexivity.
Qed.

Lemma total_cost_is_sum_of_successful_calls_witness :
  exists p,
    returned (run_summarize (answers_except [2%nat]) two_paragraphs) = Some p
    /\ total_cost p
       = accumulate
           (costs (successes
                     (call_log
                        (run_summarize (answers_except [2%nat])
                           two_paragraphs)))).
Proof.
  destruct (returned (run_summarize (answers_except [2%nat]) two_paragraphs))
    as [p|] eqn:Hp.
  - exists p. split; [reflexivity|].
    exact (total_cost_is_sum_of_successful_calls (answers_except [2%nat])
             two_paragraphs p Hp).
  - vm_compute in Hp. discriminate Hp.
Defined.

(** C8. When the combiner is called and its call raises, a result is still
    returned, and its summary is the summaries of the chunks that succeeded,
    in chunk order, joined with blank lines. *)
Theorem combiner_failure_falls_back (sv : service) (text : str) (e : event) :
  In e (call_log (run_summarize sv text)) ->
  at_site e = CombineSummaries ->
  succeeded e = false ->
  exists p,
    returned (run_summarize sv text) = Some p
    /\ summary p
       = join nn
           (texts (successes
                     (calls_at SummarizeChunk
                        (call_log (run_summarize sv text))))).
Proof.
  rewrite texts_successes.
  destruct (Z.lt_ge_cases (len text) 12000) as [Hlen|Hlen].
  - rewrite (run_summarize_short sv text Hlen). cbv zeta. cbn [call_log].
    intros [H|[H|[]]] Hs; subst e; discriminate.
  - rewrite (long_run_chunk_calls sv text Hlen).
    rewrite (run_summarize_long sv text Hlen). cbv zeta.
    set (evs := chunk_events _ _ _ _ _).
    assert (Hev : forall x, In x evs -> at_site x = SummarizeChunk).
    { intros x Hx.
      assert (Hm : In (at_site x) (map at_site evs)) by now apply in_map.
      unfold evs in Hm. rewrite chunk_events_sites in Hm.
      now apply repeat_spec in Hm. }
    destruct (texts evs) as [|first more] eqn:Ht.
    + cbn [call_log]. intros [H|H] Hs.
      * subst e; discriminate.
      * apply Hev in H. congruence.
    + destruct (len (chunk_text text 10000) >? 1); cbn [call_log returned].
      * intros [H|H] Hs Hf.
        { subst e; discriminate. }
        apply in_app_or in H. destruct H as [H|[H|[]]].
        { apply Hev in H. congruence. }
        subst e. unfold succeeded in Hf. cbn [got] in Hf.
        destruct (sv _ _) as [c|err]; [discriminate|].
        eexists. split; [reflexivity|]. reflexivity.
      * intros [H|H] Hs.
        { subst e; discriminate. }
        apply Hev in H. congruence.
Qed.

Lemma combiner_failure_falls_back_witness :
  exists p,
    returned (run_summarize (answers_except [3%nat]) two_paragraphs) = Some p
    /\ summary p
       = join nn
           (texts (successes
                     (calls_at SummarizeChunk
                        (call_log
                           (run_summarize (answers_except [3%nat])
                              two_paragraphs))))).
Proof.
  pose (d := Build_event CombineSummaries (direct_request []) (Raised [])).
  apply (combiner_failure_falls_back (answers_except [3%nat]) two_paragraphs
           (nth 3 (call_log (run_summarize (answers_except [3%nat])
                               two_paragraphs)) d)).
  - apply nth_In. apply Nat.ltb_lt. vm_compute. reflexivity.
  - vm_compute. reflexivity.
  - vm_compute. reflexivity.
Defined.

(** C1, as the code has it. On the long-document path one summarization is
    attempted per chunk, and the combiner is called exactly when the chunker
    produced more than one chunk and at least one summarization succeeded.
    When the chunker produced exactly one chunk and its summarization
    succeeded, that summary is the final summary, verbatim, and the combiner
    is not called. *)
Theorem combiner_called_iff_several_chunks (sv : service) (text : str) :
  12000 <= len text ->
  let r := run_summarize sv text in
  let attempts := calls_at SummarizeChunk (call_log r) in
  List.length attempts = List.length (chunk_text text 10000)
  /\ (combiner_called (call_log r) = true
      <-> 1 < len attempts /\ 1 <= len (successes attempts))
  /\ (len attempts = 1 ->
      forall s, texts (successes attempts) = [s] ->
        combiner_called (call_log r) = false
        /\ option_map summary (returned r) = Some s).
Proof.
  intros Hlen. cbv zeta. rewrite texts_successes.
  rewrite (long_run_chunk_calls sv text Hlen).
  rewrite (run_summarize_long sv text Hlen). cbv zeta.
  set (chunks := chunk_text text 10000).
  set (evs := chunk_events _ _ _ _ _).
  assert (Hn : List.length evs = List.length chunks)
    by apply chunk_events_length.
  assert (Hc : combiner_called evs = false) by apply chunk_events_combiner.
  assert (Hs : len (successes evs) = len (texts evs))
    by (unfold len; now rewrite texts_length).
  split; [exact Hn|].
  assert (Hn' : len evs = len chunks) by (unfold len; now rewrite Hn).
  rewrite Hn', Hs.
  destruct (texts evs) as [|first more] eqn:Ht.
  - cbn [call_log returned]. change (combiner_called (?e :: evs))
      with (combiner_called evs). rewrite Hc. split.
    + split; [discriminate|]. intros [_ H]. unfold len in H. simpl in H. lia.
    + intros _ s Hs'. discriminate.
  - destruct (Z.gtb_spec (len chunks) 1) as [Hgt|Hle]; cbn [call_log returned].
    + change (combiner_called (?e :: evs ++ ?t))
        with (combiner_called (evs ++ t)).
      rewrite combiner_called_app, Hc. split.
      * split; [intros _|reflexivity].
        split; [lia|]. unfold len. simpl. lia.
      * intros H1. lia.
    + change (combiner_called (?e :: evs)) with (combiner_called evs).
      rewrite Hc. split.
      * split; [discriminate|]. intros [H _]. lia.
      * intros _ s Hs'. inversion Hs'; subst. split; reflexivity.
Qed.

Lemma combiner_called_iff_several_chunks_witness :
  12000 <= len one_paragraph
  /\ combiner_called
       (call_log (run_summarize (answers_except []) one_paragraph)) = false
  /\ option_map summary (returned (run_summarize (answers_except []) one_paragraph))
     = Some (lit "S1").
Proof.
  assert (H : 12000 <= len one_paragraph) by (vm_compute; discriminate).
  split; [exact H|].
  apply (combiner_called_iff_several_chunks (answers_except []) one_paragraph H).
  - vm_compute. reflexivity.
  - vm_compute. reflexivity.
Defined.

(** C1, as stated, fails: of the two chunks of this document only the first
    is summarized successfully, and yet the combiner is called, and the final
    summary is the combiner's answer [S3], not the chunk's summary [S1]. *)
Lemma combiner_called_after_one_success :
  let r := run_summarize (answers_except [2%nat]) two_paragraphs in
  let attempts := calls_at SummarizeChunk (call_log r) in
  12000 <= len two_paragraphs
  /\ List.length (successes attempts) = 1%nat
  /\ texts (successes attempts) = [lit "S1"]
  /\ combiner_called (call_log r) = true
  /\ option_map summary (returned r) = Some (lit "S3").
Proof.
  cbv zeta. repeat split; vm_compute; solve [reflexivity | discriminate].
Qed.

(** C9, as stated, fails in its second half: the extraction succeeds with the
    text [S0], the direct summarization raises, and nothing is returned. *)
Lemma extraction_output_dropped :
  let r := run_summarize (answers_except [1%nat]) greeting in
  texts (calls_at ExtractKeyInfo (call_log r)) = [lit "S0"]
  /\ map succeeded (calls_at DirectSummary (call_log r)) = [false]
  /\ returned r = None.
Proof.
  cbv zeta. repeat split; vm_compute; reflexivity.
Qed.

(** C9, as the code has it. The extraction is the first call of a run and the
    only one from its site. Whether a result is returned depends on the
    summarization calls alone: one is returned exactly when the direct
    summarization, or the summarization of at least one chunk, succeeded,
    whatever the extraction did. A returned result carries the extraction's
    text when the extraction succeeded and the marker [Extraction failed]
    when it raised. *)
Theorem extraction_independent_of_summary (sv : service) (text : str) :
  let r := run_summarize sv text in
  exists e0 rest,
    call_log r = e0 :: rest
    /\ at_site e0 = ExtractKeyInfo
    /\ calls_at ExtractKeyInfo rest = []
    /\ ((exists p, returned r = Some p) <-> summarized rest = true)
    /\ forall p, returned r = Some p ->
         key_info p = match got e0 with
                      | Completed c => content c
                      | Raised _ => lit "Extraction failed"
                      end.
Proof.
  cbv zeta.
  destruct (Z.lt_ge_cases (len text) 12000) as [Hlen|Hlen].
  - rewrite (run_summarize_short sv text Hlen). cbv zeta.
    cbn [call_log returned got].
    eexists; eexists. split; [reflexivity|].
    split; [reflexivity|]. split; [reflexivity|].
    unfold summarized, succeeded. cbn [existsb at_site got site_eqb orb andb].
    destruct (sv 1%nat (direct_request text)) as [c|e]; split.
    + split; [reflexivity | intros _; eexists; reflexivity].
    + intros p Hp. inversion Hp; subst p. unfold prepare_result.
      cbn [key_info]. unfold extraction_event. cbn [got].
      now destruct (sv 0%nat _).
    + split; [intros [p Hp]; discriminate | discriminate].
    + discriminate.
  - rewrite (run_summarize_long sv text Hlen). cbv zeta.
    set (evs := chunk_events _ _ _ _ _).
    assert (Hx : calls_at ExtractKeyInfo evs = []).
    { apply (calls_at_none ExtractKeyInfo SummarizeChunk); [reflexivity|].
      unfold evs. now rewrite chunk_events_sites, chunk_events_length. }
    assert (Hsum : forall tail,
               summarized (evs ++ tail) = negb (Nat.eqb (List.length (texts evs)) 0)
                                          || summarized tail).
    { intros tail. unfold summarized. rewrite existsb_app. f_equal.
      assert (Hall : Forall (fun e => at_site e = SummarizeChunk) evs).
      { apply Forall_forall. intros x Hx'.
        assert (Hm : In (at_site x) (map at_site evs)) by now apply in_map.
        unfold evs in Hm. rewrite chunk_events_sites in Hm.
        now apply repeat_spec in Hm. }
      clear -Hall. induction Hall as [|e l He _ IH]; [reflexivity|].
      rewrite texts_cons, length_app. cbn [existsb]. rewrite IH, He.
      unfold succeeded, texts. cbn [flat_map site_eqb orb andb].
      destruct (got e); reflexivity. }
    assert (Hkey : forall s c ch cc wc,
               key_info (prepare_result s (result_of (got (extraction_event sv text))) c ch cc wc)
               = match got (extraction_event sv text) with
                 | Completed c => content c
                 | Raised _ => lit "Extraction failed"
                 end).
    { intros. unfold prepare_result. cbn [key_info].
      now destruct (got (extraction_event sv text)). }
    destruct (texts evs) as [|first more] eqn:Ht.
    + cbn [call_log returned]. eexists; eexists. split; [reflexivity|].
      split; [reflexivity|]. split; [exact Hx|]. split.
      * rewrite <- (app_nil_r evs), Hsum, ?Ht. cbn.
        split; [intros [p Hp]; discriminate | discriminate].
      * discriminate.
    + destruct (len (chunk_text text 10000) >? 1); cbn [call_log returned].
      * eexists; eexists. split; [reflexivity|].
        split; [reflexivity|]. split.
        { rewrite calls_at_app, Hx. reflexivity. }
        split.
        { rewrite Hsum, ?Ht. cbn [List.length Nat.eqb negb orb].
          split; [reflexivity | intros _; eexists; reflexivity]. }
        intros p Hp. inversion Hp; subst p.
        destruct (sv _ _); apply Hkey.
      * eexists; eexists. split; [reflexivity|].
        split; [reflexivity|]. split; [exact Hx|]. split.
        { rewrite <- (app_nil_r evs), Hsum, ?Ht. cbn [List.length Nat.eqb negb orb].
          split; [reflexivity | intros _; eexists; reflexivity]. }
        intros p Hp. inversion Hp; subst p. apply Hkey.
Qed.

Lemma extraction_independent_of_summary_witness :
  exists p,
    returned (run_summarize (answers_except [0%nat]) greeting) = Some p
    /\ key_info p = lit "Extraction failed".
Proof.
  destruct (extraction_independent_of_summary (answers_except [0%nat]) greeting)
    as [e0 [rest [Hlog [_ [_ [Hret Hkey]]]]]].
  assert (He : map got (call_log (run_summarize (answers_except [0%nat]) greeting))
               = [Raised (lit "timeout");
                  Completed (sample_completion (lit "S1"))])
    by (vm_compute; reflexivity).
  rewrite Hlog in He. cbn [map] in He. inversion He as [[He0 Hrest]].
  assert (Hs : summarized rest = true).
  { assert (H : summarized
                  (tl (call_log (run_summarize (answers_except [0%nat])
                                   greeting))) = true)
      by (vm_compute; reflexivity).
    now rewrite Hlog in H. }
  apply Hret in Hs. destruct Hs as [p Hp].
  exists p. split; [exact Hp|].
  rewrite (Hkey p Hp), He0. reflexivity.
Defined.

(** ** The Q&A session *)

(** C10. With a document loaded, [answer_question] makes exactly one call.
    When the call raises, the function returns a failure carrying the error
    and leaves the session, both counters included, as it was. When the call
    returns a response, [questions_asked] grows by one and [total_cost] by
    the cost of that call, once each, and the loaded document is untouched.
    So the counters move exactly when the call succeeds. *)
Theorem answer_question_counts_successes (sv : service) (g : QA.session)
  (question : str) :
  truthy (QA.text (QA.current_document g)) = true ->
  let a := QA.ask sv g question in
  exists e,
    QA.qa_log a = [e]
    /\ at_site e = AnswerQuestion
    /\ match got e with
       | Raised err =>
           QA.answered a = Failure err /\ QA.session_after a = g
       | Completed c =>
           QA.answered a = Success (content c) (total_tokens c) (usage_cost c)
           /\ QA.current_document (QA.session_after a) = QA.current_document g
           /\ QA.questions_asked (QA.session_stats (QA.session_after a))
              = QA.questions_asked (QA.session_stats g) + 1
           /\ QA.total_cost (QA.session_stats (QA.session_after a))
              = (QA.total_cost (QA.session_stats g) + usage_cost c)%float
       end
    /\ (success (QA.answered a) = succeeded e)
    /\ (QA.questions_asked (QA.session_stats (QA.session_after a))
        <> QA.questions_asked (QA.session_stats g)
        <-> succeeded e = true).
Proof.
  intros Hdoc. cbv zeta.
  unfold QA.ask, QA.answer_question, bind, get_globals, put_globals, create, ret.
  cbn [calls globals List.length app]. rewrite Hdoc.
  cbn [negb calls globals List.length app].
  set (rq := QA.answer_question_request _ _).
  exists (Build_event AnswerQuestion rq (sv 0%nat rq)). split; [|split].
  - now destruct (sv 0%nat rq).
  - reflexivity.
  - unfold succeeded. cbn [got].
    destruct (sv 0%nat rq) as [c|err];
      cbn [QA.answered QA.session_after globals QA.session_stats
           QA.current_document QA.questions_asked QA.total_cost success].
    + repeat split; try reflexivity. intros _. lia.
    + repeat split; try reflexivity.
      * intros H. now contradiction H.
      * discriminate.
Qed.

Lemma answer_question_counts_successes_witness :
  truthy (QA.text (QA.current_document loaded_session)) = true
  /\ exists e,
       QA.qa_log (QA.ask (answers_except [0%nat]) loaded_session (lit "why?"))
       = [e]
       /\ QA.session_after
            (QA.ask (answers_except [0%nat]) loaded_session (lit "why?"))
          = loaded_session.
Proof.
  split; [reflexivity|].
  destruct (answer_question_counts_successes (answers_except [0%nat])
              loaded_session (lit "why?") eq_refl)
    as [e [Hlog [_ [Hmatch _]]]].
  exists e. split; [exact Hlog|].
  assert (He : got e = Raised (lit "timeout")).
  { assert (H : map got
                  (QA.qa_log (QA.ask (answers_except [0%nat]) loaded_session
                                (lit "why?")))
                = [Raised (lit "timeout")]) by (vm_compute; reflexivity).
    rewrite Hlog in H. now inversion H. }
  rewrite He in Hmatch. exact (proj2 Hmatch).
Defined.

(** ** The chunker *)

Lemma truthy_nil (s : str) : truthy s = false <-> s = [].
Proof. destruct s; split; intros H; try reflexivity; discriminate. Qed.

Lemma truthy_app_l (a b : str) : truthy a = true -> truthy (a ++ b) = true.
Proof. now destruct a. Qed.

Lemma chunk_text_unfold (text : str) (chunk_size : Z) :
  chunk_text text chunk_size
  = flush (fold_left (chunk_step chunk_size) (split_nn text) ([], [])).
Proof. reflexivity. Qed.

(** The loop never takes a finished chunk back. *)
Lemma flush_fold_nil (chunk_size : Z) (ps : list str) :
  forall chunks cur,
    flush (fold_left (chunk_step chunk_size) ps (chunks, cur)) = []
    <-> chunks = [] /\ cur = [] /\ Forall (fun p => p = []) ps.
Proof.
  induction ps as [|p ps IH]; intros chunks cur.
  - cbn [fold_left flush]. destruct cur as [|c cur]; cbn [truthy].
    + split; [intros H; now repeat split | now intros [H _]].
    + split.
      * intros H. now destruct chunks.
      * intros [_ [H _]]. discriminate.
  - cbn [fold_left]. unfold chunk_step at 2.
    destruct ((len cur + len p >? chunk_size) && truthy cur) eqn:Hc.
    + rewrite IH. apply andb_prop in Hc. destruct Hc as [_ Hc]. split.
      * intros [H _]. now destruct chunks.
      * intros [_ [H _]]. subst cur. discriminate.
    + rewrite IH. destruct cur as [|c cur]; cbn [truthy app].
      * split.
        -- intros [H1 [H2 H3]]. subst. repeat split. now constructor.
        -- intros [H1 [_ H3]]. inversion H3; subst. now repeat split.
      * split.
        -- intros [_ [H _]]. discriminate.
        -- intros [_ [H _]]. discriminate.
Qed.

(** C5, as the code has it. [chunk_text] returns the empty sequence exactly
    when every paragraph of the text is empty, that is when the text is empty
    or made of blank-line separators only; in particular it returns the empty
    sequence for the empty text, and a non-empty one whenever the text has a
    non-empty paragraph. *)
Theorem chunk_text_empty_iff (text : str) (chunk_size : Z) :
  (chunk_text text chunk_size = []
   <-> Forall (fun p => p = []) (split_nn text))
  /\ (text = [] -> chunk_text text chunk_size = [])
  /\ ((exists p, In p (split_nn text) /\ p <> []) ->
      chunk_text text chunk_size <> []).
Proof.
  assert (H : chunk_text text chunk_size = []
              <-> Forall (fun p => p = []) (split_nn text)).
  { rewrite chunk_text_unfold, flush_fold_nil. tauto. }
  split; [exact H|]. split.
  - intros ->. apply H. cbn. now constructor.
  - intros [p [Hin Hp]] Hnil. apply H in Hnil.
    rewrite Forall_forall in Hnil. now apply Hp, Hnil.
Qed.

Lemma chunk_text_empty_iff_witness :
  chunk_text [] 3000 = []
  /\ chunk_text (lit "ab" ++ nn ++ lit "cd") 2 <> [].
Proof.
  split.
  - now apply (chunk_text_empty_iff [] 3000).
  - apply (chunk_text_empty_iff (lit "ab" ++ nn ++ lit "cd") 2).
    exists (lit "ab"). split; [vm_compute; now left | discriminate].
Defined.

(** C5, as stated, fails: a text that is one blank-line separator is not
    empty, and [chunk_text] returns the empty sequence for it. *)
Lemma chunk_text_of_separator :
  nn <> [] /\ chunk_text nn 3000 = [].
Proof. split; [discriminate | reflexivity]. Qed.

(** *** Chunks as groups of paragraphs *)

Lemma join_snoc (sep : str) (g : list str) (p : str) :
  g <> [] -> join sep (g ++ [p]) = join sep g ++ sep ++ p.
Proof.
  induction g as [|a g IH]; intros Hg; [contradiction|].
  destruct g as [|b g].
  - reflexivity.
  - change (join sep ((a :: b :: g) ++ [p]))
      with (a ++ sep ++ join sep ((b :: g) ++ [p])).
    rewrite IH by discriminate.
    change (join sep (a :: b :: g)) with (a ++ sep ++ join sep (b :: g)).
    now rewrite <- !app_assoc.
Qed.

Lemma join_truthy_nonempty (sep : str) (g : list str) :
  truthy (join sep g) = true -> g <> [].
Proof. intros H ->. discriminate. Qed.

(** The loop on groups and the loop on strings go in step. *)
Lemma group_step_simulates (chunk_size : Z) (ps : list str) :
  forall gs g,
    fold_left (chunk_step chunk_size) ps (map strip_join gs, join nn g)
    = (map strip_join (fst (fold_left (group_step chunk_size) ps (gs, g))),
       join nn (snd (fold_left (group_step chunk_size) ps (gs, g)))).
Proof.
  induction ps as [|p ps IH]; intros gs g; [reflexivity|].
  cbn [fold_left]. unfold chunk_step at 2, group_step at 2 4. cbv zeta.
  destruct ((len (join nn g) + len p >? chunk_size) && truthy (join nn g))
    eqn:Hc.
  - rewrite <- IH. rewrite map_app. reflexivity.
  - rewrite <- IH. f_equal. f_equal.
    destruct (truthy (join nn g)) eqn:Ht.
    + rewrite join_snoc by now apply (join_truthy_nonempty nn). reflexivity.
    + apply truthy_nil in Ht. now rewrite Ht.
Qed.

Lemma chunk_text_groups (text : str) (chunk_size : Z) :
  chunk_text text chunk_size = map strip_join (chunk_groups text chunk_size).
Proof.
  rewrite chunk_text_unfold. unfold chunk_groups.
  change (@nil str) with (map strip_join []) at 1.
  change (@nil char) with (join nn []) at 1.
  rewrite group_step_simulates.
  destruct (fold_left (group_step chunk_size) (split_nn text) ([], []))
    as [gs g].
  cbn [fst snd flush final_groups].
  destruct (truthy (join nn g)); [|reflexivity].
  now rewrite map_app.
Qed.

(** An invariant of the loop on groups: [Inv g ps] relates the current group
    to the paragraphs still to come, [Done g] holds of the finished groups. *)
Section GroupInvariant.

Variable chunk_size : Z.
Variable Inv : list str -> list str -> Prop.
Variable Done : list str -> Prop.

Hypothesis on_flush : forall g p ps,
  Inv g (p :: ps) -> truthy (join nn g) = true ->
  len (join nn g) + len p > chunk_size ->
  Done g /\ Inv [p] ps.
Hypothesis on_append : forall g p ps,
  Inv g (p :: ps) -> truthy (join nn g) = true ->
  len (join nn g) + len p <= chunk_size ->
  Inv (g ++ [p]) ps.
Hypothesis on_restart : forall g p ps,
  Inv g (p :: ps) -> join nn g = [] -> Inv [p] ps.
Hypothesis on_end : forall g,
  Inv g [] -> truthy (join nn g) = true -> Done g.

Lemma group_loop_invariant (ps : list str) :
  forall gs g,
    Inv g ps -> Forall Done gs ->
    Forall Done (final_groups (fold_left (group_step chunk_size) ps (gs, g))).
Proof.
  induction ps as [|p ps IH]; intros gs g HI HD.
  - cbn [fold_left final_groups].
    destruct (truthy (join nn g)) eqn:Ht; [|exact HD].
    apply Forall_app. split; [exact HD|]. constructor; [|constructor].
    now apply on_end.
  - cbn [fold_left]. unfold group_step at 2. cbv zeta.
    destruct (truthy (join nn g)) eqn:Ht.
    + rewrite andb_true_r.
      destruct (Z.gtb_spec (len (join nn g) + len p) chunk_size) as [Hgt|Hle].
      * destruct (on_flush g p ps HI Ht) as [Hd Hi]; [lia|].
        apply IH; [exact Hi|].
        apply Forall_app. split; [exact HD|]. now constructor.
      * apply IH; [|exact HD]. now apply on_append.
    + rewrite andb_false_r. apply IH; [|exact HD].
      apply (on_restart g); [exact HI|]. now apply truthy_nil.
Qed.

End GroupInvariant.

Lemma len_app {A} (a b : list A) : len (a ++ b) = len a + len b.
Proof. unfold len. rewrite length_app. lia. Qed.

Lemma len_nonneg {A} (a : list A) : 0 <= len a.
Proof. unfold len. lia. Qed.

Lemma len_lstrip (s : str) : len (lstrip s) <= len s.
Proof.
  induction s as [|c s IH]; cbn [lstrip]; [lia|].
  destruct (isspace c); [|lia].
  change (c :: s) with ([c] ++ s). rewrite len_app.
  pose proof (len_nonneg [c]). lia.
Qed.

Lemma len_cons {A} (c : A) (s : list A) : len (c :: s) = 1 + len s.
Proof. unfold len. cbn [List.length]. lia. Qed.

Lemma len_rstrip (s : str) : len (rstrip s) <= len s.
Proof.
  induction s as [|c s IH]; cbn [rstrip]; [lia|].
  destruct (rstrip s) as [|d t].
  - destruct (isspace c); rewrite ?len_cons; pose proof (len_nonneg s);
      unfold len in *; cbn [List.length] in *; lia.
  - rewrite !len_cons in *. lia.
Qed.

Lemma len_strip (s : str) : len (strip s) <= len s.
Proof.
  unfold strip. pose proof (len_rstrip (lstrip s)). pose proof (len_lstrip s).
  lia.
Qed.

Lemma len_join (g : list str) :
  g <> [] -> len (join nn g) = sum_len g + 2 * (len g - 1).
Proof.
  induction g as [|a g IH]; intros Hg; [contradiction|].
  destruct g as [|b g].
  - cbn [join sum_len fold_right]. unfold len at 3. cbn [List.length]. lia.
  - change (join nn (a :: b :: g)) with (a ++ nn ++ join nn (b :: g)).
    rewrite !len_app, IH by discriminate.
    change (sum_len (a :: b :: g)) with (len a + sum_len (b :: g)).
    rewrite (len_cons a (b :: g)). change (len nn) with 2. lia.
Qed.

(** C6. Every chunk is made of whole paragraphs of the text: it is the
    stripped blank-line join of a non-empty list of them. Either that list is
    a single paragraph longer than [chunk_size], or the paragraphs together
    have at most [chunk_size] characters: the chunk is then at most
    [chunk_size] long once the two characters of each join are taken off,
    and at most [chunk_size + 2] long with them. *)
Theorem chunk_within_size (text : str) (chunk_size : Z) (c : str) :
  In c (chunk_text text chunk_size) ->
  exists ps,
    ps <> []
    /\ incl ps (split_nn text)
    /\ c = strip (join nn ps)
    /\ ((sum_len ps <= chunk_size
         /\ len c - 2 * (len ps - 1) <= chunk_size
         /\ len c <= chunk_size + 2)
        \/ (exists p, ps = [p] /\ chunk_size < len p)).
Proof.
  rewrite chunk_text_groups. intros Hin.
  apply in_map_iff in Hin. destruct Hin as [g [Hc Hg]].
  pose (P := split_nn text).
  pose (Inv := fun (g ps : list str) =>
                 incl g P /\ incl ps P
                 /\ (g = [] \/ (exists p, g = [p])
                     \/ len (join nn g) <= chunk_size + 2)).
  pose (Done := fun (g : list str) =>
                  g <> [] /\ incl g P
                  /\ ((exists p, g = [p])
                      \/ len (join nn g) <= chunk_size + 2)).
  assert (Hall : Forall Done (chunk_groups text chunk_size)).
  { unfold chunk_groups.
    apply (group_loop_invariant chunk_size Inv Done).
    - intros g0 p ps [Hg0 [Hps Hb]] Ht Hgt. split.
      + split; [now apply (join_truthy_nonempty nn)|]. split; [exact Hg0|].
        destruct Hb as [->|[Hb|Hb]]; [discriminate | now left | now right].
      + split; [|split].
        * intros x [<-|[]]. apply Hps. now left.
        * intros x Hx. apply Hps. now right.
        * right. left. now exists p.
    - intros g0 p ps [Hg0 [Hps Hb]] Ht Hle. split; [|split].
      + apply incl_app; [exact Hg0|]. intros x [<-|[]]. apply Hps. now left.
      + intros x Hx. apply Hps. now right.
      + right. right.
        rewrite join_snoc by now apply (join_truthy_nonempty nn).
        rewrite !len_app. change (len nn) with 2. lia.
    - intros g0 p ps [Hg0 [Hps Hb]] Hnil. split; [|split].
      + intros x [<-|[]]. apply Hps. now left.
      + intros x Hx. apply Hps. now right.
      + right. left. now exists p.
    - intros g0 [Hg0 [_ Hb]] Ht.
      split; [now apply (join_truthy_nonempty nn)|]. split; [exact Hg0|].
      destruct Hb as [->|[Hb|Hb]]; [discriminate | now left | now right].
    - split; [|split]; [intros x [] | apply incl_refl | now left].
    - constructor. }
  rewrite Forall_forall in Hall. destruct (Hall g Hg) as [Hne [Hincl Hb]].
  exists g. split; [exact Hne|]. split; [exact Hincl|].
  split; [now rewrite <- Hc|].
  subst c. unfold strip_join.
  pose proof (len_strip (join nn g)) as Hs.
  pose proof (len_join g Hne) as Hj.
  assert (Hlen : 1 <= len g).
  { destruct g; [contradiction|]. rewrite len_cons. pose proof (len_nonneg g). lia. }
  destruct Hb as [[p ->]|Hb].
  - cbn [join] in *. change (len [p]) with 1 in *.
    change (sum_len [p]) with (len p + 0) in *.
    destruct (Z.le_gt_cases (len p) chunk_size) as [Hle|Hgt].
    + left. lia.
    + right. exists p. split; [reflexivity | lia].
  - destruct g as [|a [|b g]]; [contradiction| |].
    + cbn [join] in *. change (len [a]) with 1 in *.
      change (sum_len [a]) with (len a + 0) in *.
      destruct (Z.le_gt_cases (len a) chunk_size) as [Hle|Hgt].
      * left. lia.
      * right. exists a. split; [reflexivity | lia].
    + left. rewrite !len_cons in *. pose proof (len_nonneg g). lia.
Qed.

Lemma chunk_within_size_witness :
  In (lit "ab" ++ nn ++ lit "cd") (chunk_text (lit "ab" ++ nn ++ lit "cd") 4)
  /\ exists ps,
       ps <> []
       /\ incl ps (split_nn (lit "ab" ++ nn ++ lit "cd"))
       /\ lit "ab" ++ nn ++ lit "cd" = strip (join nn ps)
       /\ ((sum_len ps <= 4
            /\ len (lit "ab" ++ nn ++ lit "cd") - 2 * (len ps - 1) <= 4
            /\ len (lit "ab" ++ nn ++ lit "cd") <= 4 + 2)
           \/ (exists p, ps = [p] /\ 4 < len p)).
Proof.
  assert (H : In (lit "ab" ++ nn ++ lit "cd")
                (chunk_text (lit "ab" ++ nn ++ lit "cd") 4))
    by (vm_compute; now left).
  split; [exact H|].
  exact (chunk_within_size (lit "ab" ++ nn ++ lit "cd") 4
           (lit "ab" ++ nn ++ lit "cd") H).
Defined.

(** *** Splitting a concatenation *)

Lemma list_ind2 {A} (P : list A -> Prop) :
  P [] -> (forall a, P [a]) ->
  (forall a b l, P l -> P (b :: l) -> P (a :: b :: l)) ->
  forall l, P l.
Proof.
  intros H0 H1 H2 l.
  assert (H : P l /\ forall a, P (a :: l)).
  { induction l as [|b l [IHl IHc]].
    - split; [exact H0 | exact H1].
    - split; [apply IHc|]. intros a. apply H2; [exact IHl | apply IHc]. }
  apply H.
Qed.

Lemma split_nn_sep (s : str) : split_nn (nl :: nl :: s) = [] :: split_nn s.
Proof. reflexivity. Qed.

Lemma split_nn_char (c d : char) (s : str) :
  ((c =? nl) && (d =? nl))%N = false ->
  split_nn (c :: d :: s) = cons_head c (split_nn (d :: s)).
Proof. intros H. cbn [split_nn]. now rewrite H. Qed.

Lemma split_nn_both (c d : char) (s : str) :
  ((c =? nl) && (d =? nl))%N = true ->
  split_nn (c :: d :: s) = [] :: split_nn s.
Proof. intros H. cbn [split_nn]. now rewrite H. Qed.

Lemma split_nn_nonempty (s : str) : split_nn s <> [].
Proof.
  destruct s as [|c [|d s]]; try discriminate.
  destruct ((c =? nl) && (d =? nl))%N eqn:H.
  - now rewrite split_nn_both.
  - rewrite split_nn_char by exact H.
    destruct (split_nn (d :: s)); discriminate.
Qed.

Lemma glue_cons_head (c : char) (A B : list str) :
  A <> [] -> glue (cons_head c A) B = cons_head c (glue A B).
Proof.
  destruct A as [|a [|a' A]]; intros HA; [contradiction| |reflexivity].
  cbn [cons_head glue]. now destruct B.
Qed.

Lemma glue_cons (a : str) (A B : list str) :
  A <> [] -> glue (a :: A) B = a :: glue A B.
Proof. destruct A; [contradiction | reflexivity]. Qed.

Lemma glue_sep (A B : list str) : A <> [] -> glue A ([] :: B) = A ++ B.
Proof.
  induction A as [|a A IH]; intros HA; [contradiction|].
  destruct A as [|a' A].
  - cbn [glue app]. now rewrite app_nil_r.
  - rewrite glue_cons by discriminate. rewrite IH by discriminate. reflexivity.
Qed.

Lemma ends_nl_cons (c d : char) (s : str) :
  ends_nl (c :: d :: s) = ends_nl (d :: s).
Proof. reflexivity. Qed.

(** No separator across the seam when [a] does not end, or [b] does not
    start, with a line feed. *)
Lemma split_nn_app (a b : str) :
  ends_nl a && starts_nl b = false ->
  split_nn (a ++ b) = glue (split_nn a) (split_nn b).
Proof.
  revert b. induction a as [|c|c d a IH1 IH2] using list_ind2; intros b H.
  - cbn [app split_nn glue]. destruct (split_nn b) eqn:Hb; [|reflexivity].
    now apply split_nn_nonempty in Hb.
  - cbn [ends_nl] in H. destruct b as [|d b].
    + reflexivity.
    + cbn [starts_nl] in H. cbn [app]. rewrite split_nn_char by exact H.
      cbn [split_nn glue]. destruct (split_nn (d :: b)) eqn:Hb; [|reflexivity].
      now apply split_nn_nonempty in Hb.
  - rewrite ends_nl_cons in H. cbn [app].
    destruct ((c =? nl) && (d =? nl))%N eqn:Hcd.
    + rewrite !split_nn_both by exact Hcd.
      rewrite glue_cons by apply split_nn_nonempty.
      f_equal. apply IH1. destruct a as [|e a]; [reflexivity|].
      rewrite ends_nl_cons in H. exact H.
    + rewrite !split_nn_char by exact Hcd.
      rewrite glue_cons_head by apply split_nn_nonempty.
      f_equal. apply (IH2 b). exact H.
Qed.

(** *** The pieces of a split *)

(** The first piece is empty because the text starts with a separator, or it
    starts with the first character of the text. *)
Lemma split_nn_head (c : char) (s : str) (p : str) (rest : list str) :
  split_nn (c :: s) = p :: rest ->
  (p = [] /\ c = nl /\ starts_nl s = true) \/ (exists p', p = c :: p').
Proof.
  destruct s as [|d s].
  - intros H. inversion H. right. now exists [].
  - destruct ((c =? nl) && (d =? nl))%N eqn:Hcd.
    + rewrite split_nn_both by exact Hcd. intros H. inversion H. left.
      apply andb_prop in Hcd. destruct Hcd as [Hc Hd].
      apply N.eqb_eq in Hc. now repeat split.
    + rewrite split_nn_char by exact Hcd. intros H. right.
      destruct (split_nn (d :: s)) as [|q qs]; inversion H; eexists;
        reflexivity.
Qed.

Lemma split_nn_good (s : str) : good (split_nn s).
Proof.
  induction s as [|c|c d s IH1 IH2] using list_ind2.
  - cbn. repeat split. now left.
  - cbn. repeat split. now left.
  - destruct ((c =? nl) && (d =? nl))%N eqn:Hcd.
    + rewrite split_nn_both by exact Hcd. cbn [good].
      repeat split; [now right | exact IH1].
    + rewrite split_nn_char by exact Hcd.
      destruct (split_nn (d :: s)) as [|p rest] eqn:Hs;
        [now apply split_nn_nonempty in Hs|].
      cbn [cons_head good] in *. destruct IH2 as [Hp [Hend Hrest]].
      destruct (split_nn_head d s p rest Hs) as [[-> [-> Hst]]|[p' ->]].
      * repeat split; [|exact Hrest].
        right. cbn [ends_nl]. rewrite andb_comm in Hcd. exact Hcd.
      * rewrite split_nn_char by exact Hcd. rewrite Hp.
        repeat split; [|exact Hrest].
        destruct Hend as [->|He]; [now left | right; exact He].
Qed.

Lemma good_app_l (a b : list str) : good (a ++ b) -> good a.
Proof.
  induction a as [|p a IH]; [constructor|].
  cbn [app good]. intros [Hp [He Hg]]. repeat split; [exact Hp| |now apply IH].
  destruct He as [He|He]; [|now right].
  left. now destruct a.
Qed.

Lemma good_app_r (a b : list str) : good (a ++ b) -> good b.
Proof.
  induction a as [|p a IH]; [trivial|].
  cbn [app good]. intros [_ [_ Hg]]. now apply IH.
Qed.

(** Joining good pieces and splitting again gives the pieces back. *)
Lemma split_nn_join (g : list str) :
  g <> [] -> good g -> split_nn (join nn g) = g.
Proof.
  induction g as [|p g IH]; intros Hne Hg; [contradiction|].
  destruct g as [|q g].
  - cbn [join]. apply Hg.
  - change (join nn (p :: q :: g)) with (p ++ nn ++ join nn (q :: g)).
    destruct Hg as [Hp [He Hg]].
    destruct He as [He|He]; [discriminate|].
    rewrite split_nn_app by now rewrite He.
    change (nn ++ ?x) with (nl :: nl :: x). rewrite split_nn_sep.
    rewrite glue_sep by apply split_nn_nonempty.
    rewrite Hp, IH by (discriminate || exact Hg). reflexivity.
Qed.

(** Joining chunks that do not end with a line feed keeps their pieces. *)
Lemma split_nn_join_chunks (cs : list str) :
  cs <> [] -> Forall (fun c => ends_nl c = false) cs ->
  split_nn (join nn cs) = List.concat (map split_nn cs).
Proof.
  induction cs as [|c cs IH]; intros Hne Hall; [contradiction|].
  inversion Hall as [|? ? Hc Hcs]; subst.
  destruct cs as [|d cs].
  - cbn [join map List.concat]. now rewrite app_nil_r.
  - change (join nn (c :: d :: cs)) with (c ++ nn ++ join nn (d :: cs)).
    rewrite split_nn_app by now rewrite Hc.
    change (nn ++ ?x) with (nl :: nl :: x). rewrite split_nn_sep.
    rewrite glue_sep by apply split_nn_nonempty.
    rewrite IH by (discriminate || exact Hcs). reflexivity.
Qed.

(** *** Whitespace at the ends *)

Lemma isspace_nl (c : char) : (c =? nl)%N = true -> isspace c = true.
Proof. intros H. apply N.eqb_eq in H. now subst. Qed.

Lemma not_space_not_nl (c : char) : isspace c = false -> (c =? nl)%N = false.
Proof.
  intros H. destruct (c =? nl)%N eqn:E; [|reflexivity].
  apply isspace_nl in E. congruence.
Qed.

Lemma lstrip_all_ws (w : str) : all_ws w = true -> lstrip w = [].
Proof.
  induction w as [|c w IH]; [reflexivity|].
  cbn [all_ws forallb lstrip]. intros H. apply andb_prop in H.
  destruct H as [Hc Hw]. rewrite Hc. now apply IH.
Qed.

Lemma rstrip_all_ws (w : str) : all_ws w = true -> rstrip w = [].
Proof.
  induction w as [|c w IH]; [reflexivity|].
  cbn [all_ws forallb rstrip]. intros H. apply andb_prop in H.
  destruct H as [Hc Hw]. rewrite (IH Hw), Hc. reflexivity.
Qed.

Lemma strip_all_ws (w : str) : all_ws w = true -> strip w = [].
Proof. intros H. unfold strip. now rewrite lstrip_all_ws. Qed.

Lemma lstrip_app_ws (w x : str) :
  all_ws w = true -> lstrip (w ++ x) = lstrip x.
Proof.
  induction w as [|c w IH]; [reflexivity|].
  cbn [all_ws forallb lstrip app]. intros H. apply andb_prop in H.
  destruct H as [Hc Hw]. rewrite Hc. now apply IH.
Qed.

Lemma rstrip_app_ws (x w : str) :
  all_ws w = true -> rstrip (x ++ w) = rstrip x.
Proof.
  intros Hw. induction x as [|c x IH].
  - cbn [app]. now rewrite rstrip_all_ws.
  - cbn [app rstrip]. now rewrite IH.
Qed.

Lemma lstrip_app (x y : str) :
  lstrip (x ++ y) = if truthy (lstrip x) then lstrip x ++ y else lstrip y.
Proof.
  induction x as [|c x IH]; [reflexivity|].
  cbn [app lstrip]. destruct (isspace c); [exact IH | reflexivity].
Qed.

Lemma strip_app_ws_l (w x : str) : all_ws w = true -> strip (w ++ x) = strip x.
Proof. intros H. unfold strip. now rewrite lstrip_app_ws. Qed.

Lemma strip_app_ws_r (x w : str) : all_ws w = true -> strip (x ++ w) = strip x.
Proof.
  intros H. unfold strip. rewrite lstrip_app.
  destruct (truthy (lstrip x)) eqn:Ht.
  - now apply rstrip_app_ws.
  - apply truthy_nil in Ht. rewrite Ht. now rewrite lstrip_all_ws.
Qed.

Lemma lstrip_decompose (s : str) :
  exists w, all_ws w = true /\ s = w ++ lstrip s.
Proof.
  induction s as [|c s [w [Hw Hs]]].
  - now exists [].
  - cbn [lstrip]. destruct (isspace c) eqn:Hc.
    + exists (c :: w). cbn [all_ws forallb app]. rewrite Hc.
      split; [exact Hw | now f_equal].
    + now exists [].
Qed.

Lemma rstrip_decompose (s : str) :
  exists w, all_ws w = true /\ s = rstrip s ++ w.
Proof.
  induction s as [|c s [w [Hw Hs]]].
  - now exists [].
  - cbn [rstrip]. destruct (rstrip s) as [|d t] eqn:Hr.
    + cbn [app] in Hs. destruct (isspace c) eqn:Hc.
      * exists (c :: w). cbn [all_ws forallb app]. rewrite Hc.
        split; [exact Hw | now f_equal].
      * exists w. split; [exact Hw | cbn [app]; now f_equal].
    + exists w. split; [exact Hw|]. cbn [app]. now f_equal.
Qed.

Lemma starts_nl_lstrip (s : str) : starts_nl (lstrip s) = false.
Proof.
  induction s as [|c s IH]; [reflexivity|].
  cbn [lstrip]. destruct (isspace c) eqn:Hc; [exact IH|].
  cbn [starts_nl]. now apply not_space_not_nl.
Qed.

Lemma ends_nl_rstrip (s : str) : ends_nl (rstrip s) = false.
Proof.
  induction s as [|c s IH]; [reflexivity|].
  cbn [rstrip]. destruct (rstrip s) as [|d t].
  - destruct (isspace c) eqn:Hc; [reflexivity|].
    cbn [ends_nl]. now apply not_space_not_nl.
  - rewrite ends_nl_cons. exact IH.
Qed.

Lemma ends_nl_strip (s : str) : ends_nl (strip s) = false.
Proof. apply ends_nl_rstrip. Qed.

Lemma all_ws_cons_head (c : char) (l : list str) :
  isspace c = true -> Forall (fun p => all_ws p = true) l ->
  Forall (fun p => all_ws p = true) (cons_head c l).
Proof.
  intros Hc Hl. destruct l as [|p l]; cbn [cons_head].
  - constructor; [|constructor]. cbn. now rewrite Hc.
  - inversion Hl; subst. constructor; [|assumption].
    cbn [all_ws forallb]. rewrite Hc. assumption.
Qed.

Lemma split_nn_all_ws (w : str) :
  all_ws w = true -> Forall (fun p => all_ws p = true) (split_nn w).
Proof.
  induction w as [|c|c d w IH1 IH2] using list_ind2; intros H.
  - repeat constructor.
  - cbn [split_nn]. constructor; [exact H | constructor].
  - assert (H' := H). cbn [all_ws forallb] in H'.
    apply andb_prop in H'. destruct H' as [Hc H'].
    destruct ((c =? nl) && (d =? nl))%N eqn:Hcd.
    + rewrite split_nn_both by exact Hcd. constructor; [reflexivity|].
      apply IH1. apply andb_prop in H'. apply H'.
    + rewrite split_nn_char by exact Hcd.
      apply all_ws_cons_head; [exact Hc|]. now apply IH2.
Qed.

(** *** Cleaning glued pieces *)

Lemma clean_app (a b : list str) : clean (a ++ b) = clean a ++ clean b.
Proof. unfold clean. now rewrite map_app, filter_app. Qed.

Lemma clean_all_ws (l : list str) :
  Forall (fun p => all_ws p = true) l -> clean l = [].
Proof.
  induction 1 as [|p l Hp _ IH]; [reflexivity|].
  unfold clean in *. cbn [map filter]. now rewrite (strip_all_ws p Hp).
Qed.

Lemma clean_cons (p : str) (l : list str) :
  clean (p :: l) = clean [p] ++ clean l.
Proof. exact (clean_app [p] l). Qed.

Lemma clean_glue_ws_l (A B : list str) :
  A <> [] -> B <> [] -> Forall (fun p => all_ws p = true) A ->
  clean (glue A B) = clean B.
Proof.
  intros HA HB Hall. induction Hall as [|a A Ha Hall IH]; [contradiction|].
  destruct A as [|a' A].
  - destruct B as [|b B]; [contradiction|]. cbn [glue].
    rewrite clean_cons, (clean_cons b). unfold clean at 1 3. cbn [map filter].
    now rewrite strip_app_ws_l.
  - rewrite glue_cons by discriminate. rewrite clean_cons.
    rewrite (clean_all_ws [a]) by (constructor; [exact Ha | constructor]).
    apply IH. discriminate.
Qed.

Lemma clean_glue_ws_r (A B : list str) :
  A <> [] -> B <> [] -> Forall (fun p => all_ws p = true) B ->
  clean (glue A B) = clean A.
Proof.
  intros HA HB Hall. induction A as [|a A IH]; [contradiction|].
  destruct A as [|a' A].
  - destruct B as [|b B]; [contradiction|]. cbn [glue].
    inversion Hall as [|? ? Hb HB']; subst.
    rewrite clean_cons, (clean_all_ws B HB'), app_nil_r.
    unfold clean. cbn [map filter]. now rewrite strip_app_ws_r.
  - rewrite glue_cons by discriminate.
    rewrite (clean_cons a (glue _ _)), (clean_cons a (a' :: A)).
    f_equal. apply IH. discriminate.
Qed.

(** Stripping a text does not change its paragraphs. *)
Lemma paragraphs_strip (s : str) : paragraphs (strip s) = paragraphs s.
Proof.
  unfold paragraphs. fold (clean (split_nn (strip s))) (clean (split_nn s)).
  destruct (lstrip_decompose s) as [w1 [Hw1 Hs]].
  destruct (rstrip_decompose (lstrip s)) as [w2 [Hw2 Hu]].
  fold (strip s) in Hu.
  rewrite Hs at 2. rewrite split_nn_app
    by (rewrite starts_nl_lstrip; apply andb_false_r).
  rewrite clean_glue_ws_l
    by (try apply split_nn_nonempty; now apply split_nn_all_ws).
  rewrite Hu. rewrite split_nn_app by now rewrite ends_nl_strip.
  rewrite clean_glue_ws_r
    by (try apply split_nn_nonempty; now apply split_nn_all_ws).
  reflexivity.
Qed.

(** *** The groups keep the paragraphs *)

Lemma join_nil_clean (g : list str) : join nn g = [] -> clean g = [].
Proof.
  destruct g as [|p [|q g]]; intros H.
  - reflexivity.
  - cbn [join] in H. now subst.
  - change (join nn (p :: q :: g)) with (p ++ nn ++ join nn (q :: g)) in H.
    apply app_eq_nil in H. destruct H as [_ H]. discriminate.
Qed.

Lemma final_groups_clean (chunk_size : Z) (ps : list str) :
  forall gs g,
    clean (List.concat
             (final_groups (fold_left (group_step chunk_size) ps (gs, g))))
    = clean (List.concat gs ++ g ++ ps).
Proof.
  induction ps as [|p ps IH]; intros gs g.
  - cbn [fold_left final_groups]. rewrite app_nil_r.
    destruct (truthy (join nn g)) eqn:Ht.
    + rewrite concat_app. cbn [List.concat]. now rewrite app_nil_r.
    + apply truthy_nil in Ht. rewrite clean_app, (join_nil_clean g Ht).
      now rewrite app_nil_r.
  - cbn [fold_left]. unfold group_step at 2. cbv zeta.
    destruct ((len (join nn g) + len p >? chunk_size) && truthy (join nn g)).
    + rewrite IH, concat_app. cbn [List.concat]. rewrite app_nil_r.
      now rewrite <- !app_assoc.
    + destruct (truthy (join nn g)) eqn:Ht.
      * rewrite IH. now rewrite <- !app_assoc.
      * apply truthy_nil in Ht. rewrite IH.
        rewrite !clean_app, (join_nil_clean g Ht). cbn [app].
        now rewrite (clean_cons p ps).
Qed.

Lemma chunk_groups_clean (text : str) (chunk_size : Z) :
  clean (List.concat (chunk_groups text chunk_size)) = paragraphs text.
Proof. unfold chunk_groups. now rewrite final_groups_clean. Qed.

Lemma chunk_groups_good (text : str) (chunk_size : Z) :
  Forall (fun g => g <> [] /\ good g) (chunk_groups text chunk_size).
Proof.
  unfold chunk_groups.
  apply (group_loop_invariant chunk_size (fun g ps => good (g ++ ps))).
  - intros g p ps Hg Ht _. split.
    + split; [now apply (join_truthy_nonempty nn) | now apply good_app_l in Hg].
    + apply good_app_r in Hg. exact Hg.
  - intros g p ps Hg _ _. now rewrite <- app_assoc.
  - intros g p ps Hg _. apply good_app_r in Hg. exact Hg.
  - intros g Hg Ht. rewrite app_nil_r in Hg.
    split; [now apply (join_truthy_nonempty nn) | exact Hg].
  - apply split_nn_good.
  - constructor.
Qed.

Lemma clean_concat (ls : list (list str)) :
  clean (List.concat ls) = List.concat (map clean ls).
Proof.
  induction ls as [|l ls IH]; [reflexivity|].
  cbn [List.concat map]. now rewrite clean_app, IH.
Qed.

(** C7, as the code has it. Joining the chunks with the blank-line separator
    gives a text with the same non-empty paragraphs, up to the whitespace at
    their boundaries, as the input; this holds for every text and every
    [chunk_size]. *)
Theorem rejoined_chunks_keep_paragraphs (text : str) (chunk_size : Z) :
  paragraphs (join nn (chunk_text text chunk_size)) = paragraphs text.
Proof.
  rewrite <- (chunk_groups_clean text chunk_size).
  rewrite chunk_text_groups.
  pose proof (chunk_groups_good text chunk_size) as Hgood.
  assert (Hcase : chunk_groups text chunk_size = []
                  \/ chunk_groups text chunk_size <> [])
    by (destruct (chunk_groups text chunk_size); [now left | now right]).
  destruct Hcase as [Hnil|Hne]; [now rewrite Hnil|].
  unfold paragraphs. fold (clean (split_nn (join nn (map strip_join
                                 (chunk_groups text chunk_size))))).
  rewrite split_nn_join_chunks.
  - rewrite clean_concat, clean_concat, map_map, map_map. f_equal.
    apply map_ext_in. intros g Hg.
    rewrite Forall_forall in Hgood. destruct (Hgood g Hg) as [Hgne Hg'].
    change (clean (split_nn (strip_join g)))
      with (paragraphs (strip (join nn g))).
    rewrite paragraphs_strip. unfold paragraphs.
    rewrite split_nn_join by assumption. reflexivity.
  - destruct (chunk_groups text chunk_size); [contradiction | discriminate].
  - apply Forall_forall. intros c Hc. apply in_map_iff in Hc.
    destruct Hc as [g [<- _]]. apply ends_nl_strip.
Qed.

(** C7, as stated, fails: concatenated without separators, the two chunks of
    this text make the single paragraph [abcd], where the text has the two
    paragraphs [ab] and [cd]. *)
Lemma concatenated_chunks_merge_paragraphs :
  lit "ab" ++ nn ++ lit "cd" <> []
  /\ chunk_text (lit "ab" ++ nn ++ lit "cd") 2 = [lit "ab"; lit "cd"]
  /\ paragraphs (List.concat (chunk_text (lit "ab" ++ nn ++ lit "cd") 2))
     = [lit "abcd"]
  /\ paragraphs (lit "ab" ++ nn ++ lit "cd") = [lit "ab"; lit "cd"]
  /\ paragraphs (List.concat (chunk_text (lit "ab" ++ nn ++ lit "cd") 2))
     <> paragraphs (lit "ab" ++ nn ++ lit "cd").
Proof. repeat split; solve [discriminate | reflexivity]. Qed.

(** * Further properties of the code *)

(** ** The chunker, continued *)

Lemma rstrip_idempotent (s : str) : rstrip (rstrip s) = rstrip s.
Proof.
  destruct (rstrip_decompose s) as [w [Hw Hs]].
  rewrite Hs at 2. now rewrite rstrip_app_ws.
Qed.

Lemma lstrip_head (s : str) :
  lstrip s = [] \/ exists c t, lstrip s = c :: t /\ isspace c = false.
Proof.
  induction s as [|c s IH]; [now left|].
  cbn [lstrip]. destruct (isspace c) eqn:Hc; [exact IH|].
  right. now exists c, s.
Qed.

Lemma rstrip_head (c : char) (t : str) :
  isspace c = false -> exists t', rstrip (c :: t) = c :: t'.
Proof.
  intros Hc. cbn [rstrip]. destruct (rstrip t) as [|d t'].
  - rewrite Hc. now exists [].
  - now exists (d :: t').
Qed.

Lemma lstrip_strip (s : str) : lstrip (strip s) = strip s.
Proof.
  unfold strip. destruct (lstrip_head s) as [H|[c [t [H Hc]]]]; rewrite H.
  - reflexivity.
  - destruct (rstrip_head c t Hc) as [t' Ht]. rewrite Ht.
    cbn [lstrip]. now rewrite Hc.
Qed.

Lemma strip_idempotent (s : str) : strip (strip s) = strip s.
Proof.
  unfold strip at 1. rewrite lstrip_strip. unfold strip.
  apply rstrip_idempotent.
Qed.

(** X1. No chunk starts or ends with whitespace: stripping a chunk again
    changes nothing, and a chunk neither starts nor ends with a line feed. *)
Theorem chunks_are_stripped (text : str) (chunk_size : Z) (c : str) :
  In c (chunk_text text chunk_size) ->
  strip c = c /\ starts_nl c = false /\ ends_nl c = false.
Proof.
  rewrite chunk_text_groups. intros Hin.
  apply in_map_iff in Hin. destruct Hin as [g [<- _]].
  unfold strip_join. split; [apply strip_idempotent|].
  split; [|apply ends_nl_strip].
  rewrite <- lstrip_strip. apply starts_nl_lstrip.
Qed.

Lemma chunks_are_stripped_witness :
  In (lit "ab") (chunk_text (lit " ab " ++ nn ++ lit "cd") 2)
  /\ strip (lit "ab") = lit "ab".
Proof.
  assert (H : In (lit "ab") (chunk_text (lit " ab " ++ nn ++ lit "cd") 2))
    by (vm_compute; now left).
  split; [exact H|].
  apply (chunks_are_stripped (lit " ab " ++ nn ++ lit "cd") 2 (lit "ab") H).
Defined.

Lemma final_groups_keep (chunk_size : Z) (g0 : list str) (ps : list str) :
  forall gs g,
    In g0 gs ->
    In g0 (final_groups (fold_left (group_step chunk_size) ps (gs, g))).
Proof.
  induction ps as [|q ps IH]; intros gs g Hin.
  - cbn [fold_left final_groups].
    destruct (truthy (join nn g)); [apply in_or_app; now left | exact Hin].
  - cbn [fold_left]. unfold group_step at 2. cbv zeta.
    destruct ((len (join nn g) + len q >? chunk_size) && truthy (join nn g)).
    + apply IH. apply in_or_app. now left.
    + now apply IH.
Qed.

Lemma oversized_group (chunk_size : Z) (p : str) (ps : list str) :
  p <> [] -> chunk_size < len p ->
  forall gs g,
    g = [p] \/ In p ps ->
    In [p] (final_groups (fold_left (group_step chunk_size) ps (gs, g))).
Proof.
  intros Hp Hlen. assert (Ht : truthy p = true) by now destruct p.
  induction ps as [|q ps IH]; intros gs g H.
  - destruct H as [->|[]]. cbn [fold_left final_groups join]. rewrite Ht.
    apply in_or_app. right. now left.
  - cbn [fold_left]. unfold group_step at 2. cbv zeta.
    destruct H as [->|[<-|Hin]].
    + cbn [join]. rewrite Ht, andb_true_r.
      pose proof (len_nonneg q).
      destruct (Z.gtb_spec (len p + len q) chunk_size); [|lia].
      apply final_groups_keep. apply in_or_app. right. now left.
    + destruct (truthy (join nn g)) eqn:Hg.
      * rewrite andb_true_r. pose proof (len_nonneg (join nn g)).
        destruct (Z.gtb_spec (len (join nn g) + len q) chunk_size); [|lia].
        apply IH. now left.
      * rewrite andb_false_r. apply IH. now left.
    + destruct ((len (join nn g) + len q >? chunk_size)
                && truthy (join nn g)); [apply IH; now right|].
      destruct (truthy (join nn g)); apply IH; now right.
Qed.

(** X2. A non-empty paragraph longer than [chunk_size] is never merged with
    a neighbour and never cut: stripped, it is one of the chunks. *)
Theorem oversized_paragraph_is_a_chunk (text : str) (chunk_size : Z) (p : str) :
  In p (split_nn text) -> p <> [] -> chunk_size < len p ->
  In (strip p) (chunk_text text chunk_size).
Proof.
  intros Hin Hp Hlen. rewrite chunk_text_groups.
  change (strip p) with (strip_join [p]). apply in_map.
  unfold chunk_groups. apply oversized_group; [exact Hp | exact Hlen |].
  now right.
Qed.

Lemma oversized_paragraph_is_a_chunk_witness :
  In (lit "abcdef") (split_nn (lit "x" ++ nn ++ lit "abcdef" ++ nn ++ lit "y"))
  /\ In (strip (lit "abcdef"))
       (chunk_text (lit "x" ++ nn ++ lit "abcdef" ++ nn ++ lit "y") 4).
Proof.
  assert (H : In (lit "abcdef")
                (split_nn (lit "x" ++ nn ++ lit "abcdef" ++ nn ++ lit "y")))
    by (vm_compute; right; now left).
  split; [exact H|].
  apply (oversized_paragraph_is_a_chunk _ 4 (lit "abcdef") H).
  - discriminate.
  - vm_compute. reflexivity.
Defined.

Lemma join_cons (sep p : str) (rest : list str) :
  rest <> [] -> join sep (p :: rest) = p ++ sep ++ join sep rest.
Proof. destruct rest; [contradiction | reflexivity]. Qed.

Lemma join_cons_head (sep : str) (c : char) (l : list str) :
  l <> [] -> join sep (cons_head c l) = c :: join sep l.
Proof.
  destruct l as [|p [|q l]]; intros H; [contradiction | reflexivity |].
  reflexivity.
Qed.

(** Splitting at the blank lines and joining again gives the text back. *)
Lemma join_split_nn (s : str) : join nn (split_nn s) = s.
Proof.
  induction s as [|c|c d s IH1 IH2] using list_ind2; [reflexivity..|].
  destruct ((c =? nl) && (d =? nl))%N eqn:Hcd.
  - rewrite split_nn_both by exact Hcd.
    rewrite join_cons by apply split_nn_nonempty. rewrite IH1.
    apply andb_prop in Hcd. destruct Hcd as [Hc Hd].
    apply N.eqb_eq in Hc, Hd. now subst.
  - rewrite split_nn_char by exact Hcd.
    rewrite join_cons_head by apply split_nn_nonempty. now rewrite IH2.
Qed.

Lemma len_join_cons (p : str) (rest : list str) :
  len (join nn rest) <= len (join nn (p :: rest))
  /\ (rest <> [] -> len (join nn (p :: rest)) = len p + 2 + len (join nn rest)).
Proof.
  destruct rest as [|q rest].
  - cbn [join]. pose proof (len_nonneg p).
    split; [exact H | intros H'; now contradiction H'].
  - rewrite (join_cons nn p (q :: rest)) by discriminate. rewrite !len_app.
    change (len nn) with 2. pose proof (len_nonneg p). split; [lia|]. lia.
Qed.

Lemma strip_join_nil_head (rest : list str) :
  strip (join nn ([] :: rest)) = strip (join nn rest).
Proof.
  destruct rest as [|q rest]; [reflexivity|].
  change (join nn ([] :: q :: rest)) with (nn ++ join nn (q :: rest)).
  now rewrite (strip_app_ws_l nn).
Qed.

(** When what is left of the text fits, the loop only ever appends. *)
Lemma chunk_loop_fits (chunk_size : Z) (text : str) (ps : list str) :
  forall cur,
    (if truthy cur then len (join nn (cur :: ps)) else len (join nn ps))
    <= chunk_size + 2 ->
    (if truthy cur then strip (join nn (cur :: ps)) else strip (join nn ps))
    = strip text ->
    exists cur',
      fold_left (chunk_step chunk_size) ps ([], cur) = ([], cur')
      /\ (truthy cur' = true -> strip cur' = strip text).
Proof.
  induction ps as [|p ps IH]; intros cur Hlen Hstrip.
  - exists cur. split; [reflexivity|]. intros Ht. now rewrite Ht in Hstrip.
  - cbn [fold_left]. unfold chunk_step at 2.
    destruct (truthy cur) eqn:Ht.
    + rewrite andb_true_r.
      assert (Hj : join nn (cur :: p :: ps) = join nn ((cur ++ nn ++ p) :: ps)).
      { rewrite (join_cons nn cur) by discriminate.
        destruct ps as [|q ps]; [reflexivity|].
        rewrite (join_cons nn (cur ++ nn ++ p)), (join_cons nn p)
          by discriminate.
        now rewrite <- !app_assoc. }
      destruct (Z.gtb_spec (len cur + len p) chunk_size) as [Hgt|_].
      * exfalso. destruct (len_join_cons cur (p :: ps)) as [_ H].
        rewrite H in Hlen by discriminate.
        destruct (len_join_cons p ps) as [H1 _].
        pose proof (len_nonneg (join nn ps)).
        destruct ps as [|q ps].
        -- cbn [join] in Hlen. lia.
        -- rewrite (join_cons nn p (q :: ps)) in Hlen by discriminate.
           rewrite !len_app in Hlen. change (len nn) with 2 in Hlen.
           pose proof (len_nonneg (join nn (q :: ps))). lia.
      * cbv iota. apply IH.
        -- rewrite (truthy_app_l cur _ Ht). cbv iota.
           rewrite Hj in Hlen. exact Hlen.
        -- rewrite (truthy_app_l cur _ Ht). cbv iota.
           rewrite Hj in Hstrip. exact Hstrip.
    + rewrite andb_false_r. apply truthy_nil in Ht. subst cur. cbn [app].
      apply IH.
      * destruct (truthy p) eqn:Hp; [exact Hlen|].
        apply truthy_nil in Hp. subst p.
        destruct (len_join_cons [] ps) as [H _]. lia.
      * destruct (truthy p) eqn:Hp; [exact Hstrip|].
        apply truthy_nil in Hp. subst p.
        now rewrite <- strip_join_nil_head.
Qed.

(** X3. A text with a non-empty paragraph that is no longer than
    [chunk_size + 2] comes back as a single chunk: the whole text,
    stripped. *)
Theorem short_text_is_one_chunk (text : str) (chunk_size : Z) :
  (exists p, In p (split_nn text) /\ p <> []) ->
  len text <= chunk_size + 2 ->
  chunk_text text chunk_size = [strip text].
Proof.
  intros [p [Hin Hp]] Hlen.
  destruct (chunk_loop_fits chunk_size text (split_nn text) [])
    as [cur [Hfold Hcur]].
  - cbn [truthy]. now rewrite join_split_nn.
  - cbn [truthy]. now rewrite join_split_nn.
  - assert (Hne : chunk_text text chunk_size <> []).
    { rewrite chunk_text_unfold, flush_fold_nil. intros [_ [_ H]].
      rewrite Forall_forall in H. now apply Hp, H. }
    assert (H : chunk_text text chunk_size = flush ([], cur))
      by (rewrite chunk_text_unfold; exact (f_equal flush Hfold)).
    rewrite H in Hne |- *. cbn [flush] in Hne |- *.
    destruct (truthy cur) eqn:Ht; [|contradiction].
    cbn [app]. now rewrite Hcur.
Qed.

Lemma short_text_is_one_chunk_witness :
  chunk_text (lit " ab" ++ nn ++ lit "cd") 5 = [lit "ab" ++ nn ++ lit "cd"].
Proof.
  apply (short_text_is_one_chunk (lit " ab" ++ nn ++ lit "cd") 5).
  - exists (lit "cd"). split; [vm_compute; right; now left | discriminate].
  - vm_compute. discriminate.
Defined.

Lemma join_nil_all_empty (g : list str) :
  join nn g = [] -> filter truthy g = [].
Proof.
  destruct g as [|p [|q g]]; intros H.
  - reflexivity.
  - cbn [join] in H. now subst.
  - change (join nn (p :: q :: g)) with (p ++ nn ++ join nn (q :: g)) in H.
    apply app_eq_nil in H. destruct H as [_ H]. discriminate.
Qed.

(** The groups hold the non-empty paragraphs of the text, in order. *)
Lemma final_groups_nonempty (chunk_size : Z) (ps : list str) :
  forall gs g,
    filter truthy
      (List.concat
         (final_groups (fold_left (group_step chunk_size) ps (gs, g))))
    = filter truthy (List.concat gs ++ g ++ ps).
Proof.
  induction ps as [|p ps IH]; intros gs g.
  - cbn [fold_left final_groups]. rewrite app_nil_r.
    destruct (truthy (join nn g)) eqn:Ht.
    + rewrite concat_app. cbn [List.concat]. now rewrite app_nil_r.
    + apply truthy_nil in Ht. rewrite filter_app, (join_nil_all_empty g Ht).
      now rewrite app_nil_r.
  - cbn [fold_left]. unfold group_step at 2. cbv zeta.
    destruct ((len (join nn g) + len p >? chunk_size) && truthy (join nn g)).
    + rewrite IH, concat_app. cbn [List.concat]. rewrite app_nil_r.
      now rewrite <- !app_assoc.
    + destruct (truthy (join nn g)) eqn:Ht.
      * rewrite IH. now rewrite <- !app_assoc.
      * apply truthy_nil in Ht. rewrite IH.
        rewrite !filter_app, (join_nil_all_empty g Ht). cbn [app].
        change (p :: ps) with ([p] ++ ps). now rewrite filter_app.
Qed.

Lemma chunk_groups_head (text : str) (chunk_size : Z) :
  Forall (fun g => exists p rest, g = p :: rest /\ truthy p = true)
    (chunk_groups text chunk_size).
Proof.
  unfold chunk_groups.
  apply (group_loop_invariant chunk_size
           (fun g _ => g = [] \/ (exists p, g = [p])
                       \/ exists p rest, g = p :: rest /\ truthy p = true)).
  - intros g p ps Hg Ht _. split.
    + destruct Hg as [->|[[q ->]|Hg]]; [discriminate| |exact Hg].
      exists q, []. split; [reflexivity | exact Ht].
    + right. left. now exists p.
  - intros g p ps Hg Ht _. right. right.
    destruct Hg as [->|[[q ->]|[q [rest [-> Hq]]]]]; [discriminate| |].
    + exists q, [p]. split; [reflexivity | exact Ht].
    + exists q, (rest ++ [p]). split; [reflexivity | exact Hq].
  - intros g p ps _ _. right. left. now exists p.
  - intros g Hg Ht.
    destruct Hg as [->|[[q ->]|Hg]]; [discriminate| |exact Hg].
    exists q, []. split; [reflexivity | exact Ht].
  - now left.
  - constructor.
Qed.

Lemma groups_count (gs : list (list str)) :
  Forall (fun g => exists p rest, g = p :: rest /\ truthy p = true) gs ->
  len gs <= len (filter truthy (List.concat gs)).
Proof.
  induction 1 as [|g gs [p [rest [-> Hp]]] _ IH]; [reflexivity|].
  cbn [List.concat app filter]. rewrite Hp, filter_app, !len_cons, len_app.
  pose proof (len_nonneg (filter truthy rest)). lia.
Qed.

(** X4. [chunk_text] returns at most as many chunks as the text has
    non-empty paragraphs. *)
Theorem chunk_count_bound (text : str) (chunk_size : Z) :
  len (chunk_text text chunk_size) <= len (filter truthy (split_nn text)).
Proof.
  rewrite chunk_text_groups.
  replace (len (map strip_join (chunk_groups text chunk_size)))
    with (len (chunk_groups text chunk_size))
    by (unfold len; now rewrite length_map).
  pose proof (groups_count _ (chunk_groups_head text chunk_size)) as H.
  unfold chunk_groups in H at 2. rewrite final_groups_nonempty in H.
  exact H.
Qed.

(** ** The orchestrator, continued *)

(** X5. A returned result counts at least one chunk, and at least as many
    chunks as summaries were obtained; its word count is the number of
    whitespace-separated words of the text. *)
Theorem result_counts (sv : service) (text : str) (p : pipeline_result) :
  returned (run_summarize sv text) = Some p ->
  1 <= chunks_processed p
  /\ len (successes (calls_at SummarizeChunk
                       (call_log (run_summarize sv text))))
     <= chunks_processed p
  /\ original_words p = len (split_ws text).
Proof.
  destruct (Z.lt_ge_cases (len text) 12000) as [Hlen|Hlen].
  - rewrite (run_summarize_short sv text Hlen). cbv zeta.
    cbn [returned call_log got].
    destruct (sv 1%nat (direct_request text)) as [c|e]; [|discriminate].
    intros Hp. inversion Hp; subst p. unfold prepare_result.
    cbn [chunks_processed original_words].
    destruct (Z.geb_spec (len text) 12000); [lia|].
    repeat split; try lia. unfold calls_at, extraction_event.
    cbn [filter at_site site_eqb successes]. unfold len. cbn. lia.
  - rewrite (long_run_chunk_calls sv text Hlen).
    rewrite (run_summarize_long sv text Hlen). cbv zeta.
    set (chunks := chunk_text text 10000).
    set (evs := chunk_events _ _ _ _ _).
    assert (Hn : len evs = len chunks)
      by (unfold len, evs; now rewrite chunk_events_length).
    assert (Hs : len (successes evs) <= len evs).
    { unfold len, successes. pose proof (filter_length_le succeeded evs). lia. }
    assert (Ht : len (texts evs) = len (successes evs))
      by (unfold len; now rewrite texts_length).
    assert (Hge : (len text >=? 12000) = true)
      by (destruct (Z.geb_spec (len text) 12000); [reflexivity | lia]).
    intros Hp.
    assert (Hres : chunks_processed p = len chunks
                   /\ original_words p = len (split_ws text)
                   /\ 1 <= len (texts evs)).
    { destruct (texts evs) as [|first more]; [discriminate|].
      assert (H1 : 1 <= len (first :: more))
        by (rewrite len_cons; pose proof (len_nonneg more); lia).
      destruct (len chunks >? 1); cbn [returned] in Hp.
      - destruct (sv _ _); inversion Hp; subst p; unfold prepare_result;
          cbn [chunks_processed original_words]; rewrite Hge; now repeat split.
      - inversion Hp; subst p; unfold prepare_result;
          cbn [chunks_processed original_words]; rewrite Hge; now repeat split. }
    destruct Hres as [Hc [Hw H1]]. rewrite Hc, Hw. repeat split; lia.
Qed.

Lemma result_counts_witness :
  exists p,
    returned (run_summarize (answers_except [2%nat]) two_paragraphs) = Some p
    /\ 1 <= chunks_processed p.
Proof.
  destruct (returned (run_summarize (answers_except [2%nat]) two_paragraphs))
    as [p|] eqn:Hp.
  - exists p. split; [reflexivity|].
    apply (result_counts (answers_except [2%nat]) two_paragraphs p Hp).
  - vm_compute in Hp. discriminate Hp.
Defined.

(** X6. When the combiner is called, it is the last call of the run; it is
    sent the summaries of the chunks that succeeded, in chunk order, failed
    chunks left out; and when it answers, a result is returned whose summary
    is that answer, verbatim. *)
Theorem combiner_input_and_output (sv : service) (text : str) (e : event) :
  In e (call_log (run_summarize sv text)) ->
  at_site e = CombineSummaries ->
  (exists before, call_log (run_summarize sv text) = before ++ [e])
  /\ sent e
     = combine_summaries_request
         (texts (successes
                   (calls_at SummarizeChunk
                      (call_log (run_summarize sv text)))))
  /\ forall c, got e = Completed c ->
       exists p,
         returned (run_summarize sv text) = Some p /\ summary p = content c.
Proof.
  rewrite texts_successes.
  destruct (Z.lt_ge_cases (len text) 12000) as [Hlen|Hlen].
  - rewrite (run_summarize_short sv text Hlen). cbv zeta. cbn [call_log].
    intros [H|[H|[]]] Hs; subst e; discriminate.
  - rewrite (long_run_chunk_calls sv text Hlen).
    rewrite (run_summarize_long sv text Hlen). cbv zeta.
    set (evs := chunk_events _ _ _ _ _).
    assert (Hev : forall x, In x evs -> at_site x = SummarizeChunk).
    { intros x Hx.
      assert (Hm : In (at_site x) (map at_site evs)) by now apply in_map.
      unfold evs in Hm. rewrite chunk_events_sites in Hm.
      now apply repeat_spec in Hm. }
    destruct (texts evs) as [|first more] eqn:Ht.
    + cbn [call_log]. intros [H|H] Hs.
      * subst e; discriminate.
      * apply Hev in H. congruence.
    + destruct (len (chunk_text text 10000) >? 1); cbn [call_log returned].
      * intros [H|H] Hs.
        { subst e; discriminate. }
        apply in_app_or in H. destruct H as [H|[H|[]]].
        { apply Hev in H. congruence. }
        subst e. cbn [sent got]. split; [|split].
        -- exists (extraction_event sv text :: evs). reflexivity.
        -- reflexivity.
        -- intros c Hc. rewrite Hc. eexists. split; reflexivity.
      * intros [H|H] Hs.
        { subst e; discriminate. }
        apply Hev in H. congruence.
Qed.

Lemma combiner_input_and_output_witness :
  exists p,
    returned (run_summarize (answers_except [2%nat]) two_paragraphs) = Some p
    /\ summary p = lit "S3".
Proof.
  pose (d := Build_event CombineSummaries (direct_request []) (Raised [])).
  pose (log := call_log (run_summarize (answers_except [2%nat]) two_paragraphs)).
  assert (Hin : In (nth 3 log d) log)
    by (apply nth_In; apply Nat.ltb_lt; vm_compute; reflexivity).
  assert (Hs : at_site (nth 3 log d) = CombineSummaries)
    by (vm_compute; reflexivity).
  destruct (combiner_input_and_output (answers_except [2%nat]) two_paragraphs
              (nth 3 log d) Hin Hs) as [_ [_ H]].
  apply (H (sample_completion (lit "S3"))). vm_compute. reflexivity.
Defined.

(** X7. On the short path, a returned result's summary is the text of the
    direct summarization's response, verbatim, and no result is returned when
    that call raises. *)
Theorem direct_summary_verbatim (sv : service) (text : str) :
  len text < 12000 ->
  exists e,
    calls_at DirectSummary (call_log (run_summarize sv text)) = [e]
    /\ option_map summary (returned (run_summarize sv text))
       = match got e with
         | Completed c => Some (content c)
         | Raised _ => None
         end.
Proof.
  intros Hlen. rewrite (run_summarize_short sv text Hlen). cbv zeta.
  cbn [call_log returned got]. eexists. split; [reflexivity|].
  cbn [got]. now destruct (sv 1%nat (direct_request text)).
Qed.

Lemma direct_summary_verbatim_witness :
  len greeting < 12000
  /\ option_map summary (returned (run_summarize (answers_except []) greeting))
     = Some (lit "S1").
Proof.
  assert (H : len greeting < 12000) by (vm_compute; reflexivity).
  split; [exact H|].
  destruct (direct_summary_verbatim (answers_except []) greeting H)
    as [e [He Hs]].
  rewrite Hs.
  assert (Hg : map got (calls_at DirectSummary
                          (call_log (run_summarize (answers_except []) greeting)))
               = [Completed (sample_completion (lit "S1"))])
    by (vm_compute; reflexivity).
  rewrite He in Hg. inversion Hg as [Hg']. now rewrite Hg'.
Defined.

(** ** The Q&A session, continued *)

(** One call of [answer_question], from any state of the run. *)
Lemma answer_question_step (sv : service) (question : str)
  (w : world QA.session) :
  QA.answer_question question sv w =
    if truthy (QA.text (QA.current_document (globals w))) then
      let rq := QA.answer_question_request question
                  (prefix 30000 (QA.text (QA.current_document (globals w)))) in
      let r := sv (List.length (calls w)) rq in
      let log := calls w ++ [Build_event AnswerQuestion rq r] in
      match r with
      | Completed c =>
          (Success (content c) (total_tokens c) (usage_cost c),
           Build_world log (count_answer (globals w) (usage_cost c)))
      | Raised err => (Failure err, Build_world log (globals w))
      end
    else (no_document, w).
Proof.
  unfold QA.answer_question, bind, get_globals, put_globals, create, ret.
  destruct (truthy (QA.text (QA.current_document (globals w)))) eqn:Hd;
    cbn [negb]; [|reflexivity].
  cbv zeta. cbn [calls globals].
  destruct (sv (List.length (calls w)) _) as [c|err]; reflexivity.
Qed.

(** X8. Without a loaded text, whether none was loaded yet or the loaded one
    is empty, [answer_question] fails with its own message, calls nothing and
    leaves the session as it was. *)
Theorem no_document_no_call (sv : service) (g : QA.session) (question : str) :
  QA.text (QA.current_document g) = [] ->
  QA.ask sv g question
  = {| QA.answered := no_document; QA.session_after := g; QA.qa_log := [] |}.
Proof.
  intros Hd. unfold QA.ask. rewrite answer_question_step.
  cbn [globals]. now rewrite Hd.
Qed.

Lemma no_document_no_call_witness :
  QA.ask (answers_except []) QA.initial (lit "why?")
  = {| QA.answered := no_document;
       QA.session_after := QA.initial;
       QA.qa_log := [] |}.
Proof.
  apply (no_document_no_call (answers_except []) QA.initial (lit "why?")).
  reflexivity.
Defined.

Lemma after_last_slash_spec (p : str) :
  existsb (N.eqb slash) (snd (after_last_slash p)) = false
  /\ (fst (after_last_slash p) = false -> snd (after_last_slash p) = p)
  /\ (fst (after_last_slash p) = true ->
      exists dir, p = dir ++ slash :: snd (after_last_slash p)).
Proof.
  induction p as [|c p [IH1 [IH2 IH3]]].
  - cbn. repeat split. discriminate.
  - cbn [after_last_slash].
    destruct (after_last_slash p) as [found tail]. cbn [fst snd] in *.
    destruct found.
    + cbn [fst snd]. repeat split; [exact IH1 | discriminate |].
      intros _. destruct (IH3 eq_refl) as [dir Hdir].
      exists (c :: dir). cbn [app]. now f_equal.
    + rewrite (IH2 eq_refl) in *.
      destruct (c =? slash)%N eqn:Hc; cbn [fst snd].
      * repeat split; [exact IH1 | discriminate |].
        intros _. exists []. apply N.eqb_eq in Hc. now subst.
      * repeat split; [|discriminate].
        cbn [existsb]. rewrite N.eqb_sym, Hc. exact IH1.
Qed.

(** The base name holds no slash, and the path is that name behind a
    directory part that is empty or ends with a slash. *)
Lemma basename_last_component (p : str) :
  existsb (N.eqb slash) (basename p) = false
  /\ exists dir,
       p = dir ++ basename p
       /\ (dir = [] \/ exists d, dir = d ++ [slash]).
Proof.
  unfold basename. destruct (after_last_slash_spec p) as [H1 [H2 H3]].
  split; [exact H1|].
  destruct (fst (after_last_slash p)) eqn:Hf.
  - destruct (H3 eq_refl) as [dir Hdir]. exists (dir ++ [slash]).
    split; [now rewrite <- app_assoc | right; now exists dir].
  - exists []. split; [now rewrite (H2 eq_refl) | now left].
Qed.

(** X9. [load_document_for_qa] calls no completion and never touches the
    session counters. When reading fails it returns [False] and the document
    loaded before stays. When reading succeeds it returns [True] and the
    loaded document is the text and word count read, under a file name that
    holds no slash and is the end of the path, after a directory part that
    is empty or ends with a slash. *)
Theorem load_document_effect (read_document : str -> read_result)
  (file_path : str) (sv : service) (w : world QA.session) :
  let ok := fst (load_document_for_qa read_document file_path sv w) in
  let w' := snd (load_document_for_qa read_document file_path sv w) in
  calls w' = calls w
  /\ QA.session_stats (globals w') = QA.session_stats (globals w)
  /\ match read_document file_path with
     | ReadFailed _ => ok = false /\ w' = w
     | ReadOk text word_count =>
         ok = true
         /\ QA.text (QA.current_document (globals w')) = text
         /\ QA.word_count (QA.current_document (globals w')) = word_count
         /\ existsb (N.eqb slash)
              (QA.filename (QA.current_document (globals w'))) = false
         /\ exists dir,
              file_path
              = dir ++ QA.filename (QA.current_document (globals w'))
              /\ (dir = [] \/ exists d, dir = d ++ [slash])
     end.
Proof.
  cbv zeta. unfold load_document_for_qa.
  destruct (read_document file_path) as [text wc|err].
  - unfold bind, get_globals, put_globals, ret.
    cbn [fst snd calls globals QA.session_stats QA.current_document QA.text
         QA.word_count QA.filename].
    destruct (basename_last_component file_path) as [Hs Hd].
    now repeat split.
  - unfold ret. cbn. destruct w. now repeat split.
Qed.

Lemma load_document_ok (read_document : str -> read_result)
  (file_path text : str) (word_count : Z) (sv : service)
  (w : world QA.session) :
  read_document file_path = ReadOk text word_count ->
  load_document_for_qa read_document file_path sv w
  = (true,
     Build_world (calls w)
       {| QA.current_document :=
            {| QA.text := text;
               QA.filename := basename file_path;
               QA.word_count := word_count |};
          QA.session_stats := QA.session_stats (globals w) |}).
Proof.
  intros Hread. unfold load_document_for_qa. rewrite Hread. reflexivity.
Qed.

(** X10. Loading then asking: after a successful load, [answer_question]
    works on the document just read, whatever was loaded before. It sends
    one request, built from the question and the first 30000 characters of
    the text read; when the text read is empty it sends nothing and fails as
    if no document were loaded. *)
Theorem load_then_ask (read_document : str -> read_result)
  (file_path question text : str) (word_count : Z) (sv : service)
  (g : QA.session) :
  read_document file_path = ReadOk text word_count ->
  let w := snd (load_document_for_qa read_document file_path sv
                  (Build_world [] g)) in
  let r := fst (QA.answer_question question sv w) in
  let w' := snd (QA.answer_question question sv w) in
  map sent (calls w')
  = (if truthy text
     then [QA.answer_question_request question (prefix 30000 text)]
     else [])
  /\ (text = [] -> r = no_document /\ globals w' = globals w).
Proof.
  intros Hread. cbv zeta.
  rewrite (load_document_ok _ _ _ _ _ _ Hread). cbn [snd].
  rewrite answer_question_step.
  cbn [globals calls QA.current_document QA.text List.length app].
  destruct (truthy text) eqn:Ht.
  - cbv zeta. split.
    + destruct (sv 0%nat _); reflexivity.
    + intros ->. discriminate.
  - split; [reflexivity|]. intros _. split; reflexivity.
Qed.

Lemma load_then_ask_witness :
  map sent
    (calls (snd (QA.answer_question (lit "why?") (answers_except [])
                   (snd (load_document_for_qa
                           (fun _ => ReadOk greeting 1) (lit "docs/hello.txt")
                           (answers_except [])
                           (Build_world [] QA.initial))))))
  = [QA.answer_question_request (lit "why?") (prefix 30000 greeting)].
Proof.
  apply (load_then_ask (fun _ => ReadOk greeting 1) (lit "docs/hello.txt")
           (lit "why?") greeting 1 (answers_except []) QA.initial eq_refl).
Defined.

(** The question loop, from any state of the run. *)
Lemma question_loop_spec (lower : str -> str) (sv : service)
  (inputs : list str) :
  forall w : world QA.session,
    let text := QA.text (QA.current_document (globals w)) in
    let r := question_loop lower inputs sv w in
    exists new,
      calls (snd r) = calls w ++ new
      /\ map at_site new = repeat AnswerQuestion (List.length new)
      /\ map sent new
         = (if truthy text
            then map (fun q => QA.answer_question_request q (prefix 30000 text))
                   (questions lower inputs)
            else [])
      /\ QA.current_document (globals (snd r))
         = QA.current_document (globals w)
      /\ QA.questions_asked (QA.session_stats (globals (snd r)))
         = QA.questions_asked (QA.session_stats (globals w))
           + len (successes new)
      /\ QA.total_cost (QA.session_stats (globals (snd r)))
         = fold_left PrimFloat.add (costs new)
             (QA.total_cost (QA.session_stats (globals w)))
      /\ fst r = (if existsb (is_quit lower) (map strip inputs)
                  then Stopped else InputExhausted).
Proof.
  induction inputs as [|line rest IH]; intros w; cbv zeta.
  - exists []. cbn. rewrite app_nil_r, Z.add_0_r.
    repeat split. now destruct (truthy _).
  - cbn [question_loop map existsb]. unfold questions. cbn [before_quit].
    destruct (is_quit lower (strip line)) eqn:Hq.
    + exists []. cbn. rewrite app_nil_r, Z.add_0_r.
      repeat split. now destruct (truthy _).
    + cbn [orb filter]. fold (questions lower rest).
      destruct (is_stats lower (strip line)) eqn:Hs; [exact (IH w)|].
      destruct (truthy (strip line)) eqn:Ht; cbn [negb andb]; [|exact (IH w)].
      unfold bind. rewrite answer_question_step.
      destruct (truthy (QA.text (QA.current_document (globals w)))) eqn:Hd.
      * cbv zeta.
        set (rq := QA.answer_question_request _ _).
        set (e := Build_event AnswerQuestion rq (sv (List.length (calls w)) rq)).
        assert (Hnext : forall w1 : world QA.session,
                   calls w1 = calls w ++ [e] ->
                   QA.current_document (globals w1)
                   = QA.current_document (globals w) ->
                   QA.questions_asked (QA.session_stats (globals w1))
                   = QA.questions_asked (QA.session_stats (globals w))
                     + len (successes [e]) ->
                   QA.total_cost (QA.session_stats (globals w1))
                   = fold_left PrimFloat.add (costs [e])
                       (QA.total_cost (QA.session_stats (globals w))) ->
                   exists new,
                     calls (snd (question_loop lower rest sv w1))
                     = calls w ++ new
                     /\ map at_site new
                        = repeat AnswerQuestion (List.length new)
                     /\ map sent new
                        = rq :: map (fun q =>
                                       QA.answer_question_request q
                                         (prefix 30000
                                            (QA.text
                                               (QA.current_document
                                                  (globals w)))))
                                  (questions lower rest)
                     /\ QA.current_document
                          (globals (snd (question_loop lower rest sv w1)))
                        = QA.current_document (globals w)
                     /\ QA.questions_asked
                          (QA.session_stats
                             (globals (snd (question_loop lower rest sv w1))))
                        = QA.questions_asked (QA.session_stats (globals w))
                          + len (successes new)
                     /\ QA.total_cost
                          (QA.session_stats
                             (globals (snd (question_loop lower rest sv w1))))
                        = fold_left PrimFloat.add (costs new)
                            (QA.total_cost (QA.session_stats (globals w)))
                     /\ fst (question_loop lower rest sv w1)
                        = (if existsb (is_quit lower) (map strip rest)
                           then Stopped else InputExhausted)).
        { intros w1 Hc Hdoc Hn Hcost.
          destruct (IH w1) as [new [H1 [H2 [H3 [H4 [H5 [H6 H7]]]]]]].
          exists (e :: new). rewrite H1, Hc, <- app_assoc.
          split; [reflexivity|]. split; [cbn; now rewrite H2|].
          split.
          { cbn [map]. rewrite H3, Hdoc, Hd. reflexivity. }
          split; [now rewrite H4|]. split.
          { rewrite H5, Hn. change (e :: new) with ([e] ++ new).
            unfold successes. rewrite filter_app, len_app. lia. }
          split; [|exact H7].
          rewrite H6, Hcost. rewrite (costs_cons e new).
          now rewrite fold_left_app. }
        subst e. destruct (sv (List.length (calls w)) rq) as [c|err] eqn:Hr.
        -- apply Hnext; try reflexivity.
        -- apply Hnext; try reflexivity. cbn. lia.
      * destruct (IH w) as [new [H1 [H2 [H3 [H4 [H5 [H6 H7]]]]]]].
        rewrite Hd in H3. exists new. now repeat split.
Qed.

(** X11. The session counters after the question loop: [questions_asked] has
    grown by the number of completions that answered, [total_cost] by their
    costs added in call order, and the loaded document is the same; commands,
    blank lines and failed calls count for nothing. *)
Theorem loop_counts_answers (lower : str -> str) (sv : service)
  (g : QA.session) (inputs : list str) :
  let r := run_loop lower sv g inputs in
  QA.current_document (session_left r) = QA.current_document g
  /\ QA.questions_asked (QA.session_stats (session_left r))
     = QA.questions_asked (QA.session_stats g) + len (successes (loop_log r))
  /\ QA.total_cost (QA.session_stats (session_left r))
     = fold_left PrimFloat.add (costs (loop_log r))
         (QA.total_cost (QA.session_stats g)).
Proof.
  cbv zeta. unfold run_loop.
  destruct (question_loop_spec lower sv inputs (Build_world [] g))
    as [new [H1 [_ [_ [H4 [H5 [H6 _]]]]]]].
  destruct (question_loop lower inputs sv (Build_world [] g)) as [r w].
  cbn [snd fst calls globals session_left loop_log app] in *.
  rewrite H1. now repeat split.
Qed.

(** X12. With a document loaded, the question loop sends one request per
    question typed before the first quit command, in order, each built from
    the stripped line and the first 30000 characters of the document; the
    [stats] command and blank lines send nothing, and nothing typed after
    the quit command is read. The loop ends by [break] exactly when a quit
    command was typed, and with [EOFError] otherwise. *)
Theorem loop_sends_the_questions (lower : str -> str) (sv : service)
  (g : QA.session) (inputs : list str) :
  truthy (QA.text (QA.current_document g)) = true ->
  let r := run_loop lower sv g inputs in
  map sent (loop_log r)
  = map (fun q => QA.answer_question_request q
                    (prefix 30000 (QA.text (QA.current_document g))))
      (questions lower inputs)
  /\ map at_site (loop_log r)
     = repeat AnswerQuestion (List.length (questions lower inputs))
  /\ ended r = (if existsb (is_quit lower) (map strip inputs)
                then Stopped else InputExhausted).
Proof.
  intros Hd. cbv zeta. unfold run_loop.
  destruct (question_loop_spec lower sv inputs (Build_world [] g))
    as [new [H1 [H2 [H3 [_ [_ [_ H7]]]]]]].
  destruct (question_loop lower inputs sv (Build_world [] g)) as [r w].
  cbn [snd fst calls globals ended loop_log app] in *.
  rewrite Hd in H3. rewrite H1. split; [exact H3|]. split; [|exact H7].
  rewrite H2. f_equal.
  rewrite <- (length_map sent new), H3. now rewrite length_map.
Qed.

Lemma loop_sends_the_questions_witness :
  truthy (QA.text (QA.current_document loaded_session)) = true
  /\ List.length
       (loop_log
          (run_loop ascii_lower (answers_except []) loaded_session
             [lit " Why? "; lit "STATS"; lit ""; lit "how?"; lit "Quit";
              lit "late"]))
     = 2%nat.
Proof.
  split; [reflexivity|].
  destruct (loop_sends_the_questions ascii_lower (answers_except [])
              loaded_session
              [lit " Why? "; lit "STATS"; lit ""; lit "how?"; lit "Quit";
               lit "late"] eq_refl) as [_ [H _]].
  rewrite <- (length_map at_site), H, repeat_length.
  vm_compute. reflexivity.
Defined.

(** ** Rows of a box *)

Example wrap_rows_example :
  wrap_contents [lit "ab"; lit "cd"] = [lit "ab cd"].
Proof. reflexivity. Qed.

Lemma wrap_rows_contents_from (words : list str) :
  forall cs cl,
    fold_left wrap_step words (map box_row cs, cl)
    = (map box_row (fst (fold_left wrap_content_step words (cs, cl))),
       snd (fold_left wrap_content_step words (cs, cl))).
Proof.
  induction words as [|w words IH]; intros cs cl; [reflexivity|].
  cbn [fold_left]. unfold wrap_step at 2, wrap_content_step at 2 4.
  destruct (len cl + len w + 1 <=? 66).
  - apply IH.
  - rewrite <- IH. now rewrite map_app.
Qed.

Lemma wrap_rows_contents (words : list str) :
  wrap_rows words = map box_row (wrap_contents words).
Proof.
  unfold wrap_rows, wrap_contents.
  change (@nil str) with (map box_row []) at 1.
  rewrite wrap_rows_contents_from.
  destruct (fold_left wrap_content_step words _) as [cs cl].
  cbn [fst snd wrap_finish]. destruct (truthy cl); [|reflexivity].
  now rewrite map_app.
Qed.

(** *** Words *)

Lemma split_ws_space (c : char) (s : str) :
  isspace c = true -> split_ws (c :: s) = split_ws s.
Proof. intros H. cbn [split_ws]. now rewrite H. Qed.

Lemma split_ws_last (c : char) :
  isspace c = false -> split_ws [c] = [[c]].
Proof. intros H. cbn [split_ws]. now rewrite H. Qed.

Lemma split_ws_end (c d : char) (s : str) :
  isspace c = false -> isspace d = true ->
  split_ws (c :: d :: s) = [c] :: split_ws (d :: s).
Proof. intros Hc Hd. cbn [split_ws]. now rewrite Hc, Hd. Qed.

Lemma split_ws_more (c d : char) (s : str) :
  isspace c = false -> isspace d = false ->
  split_ws (c :: d :: s) = cons_head c (split_ws (d :: s)).
Proof. intros Hc Hd. cbn [split_ws]. now rewrite Hc, Hd. Qed.

Lemma split_ws_starts (d : char) (s : str) :
  isspace d = false -> split_ws (d :: s) <> [].
Proof.
  intros Hd. destruct s as [|e s].
  - now rewrite split_ws_last.
  - destruct (isspace e) eqn:He.
    + now rewrite split_ws_end.
    + rewrite split_ws_more by assumption.
      destruct (split_ws (e :: s)); discriminate.
Qed.

Lemma cons_head_app (c : char) (x y : list str) :
  x <> [] -> cons_head c (x ++ y) = cons_head c x ++ y.
Proof. destruct x; [contradiction | reflexivity]. Qed.

(** A whitespace character ends a word. *)
Lemma split_ws_app (a b : str) (c : char) :
  isspace c = true -> split_ws (a ++ c :: b) = split_ws a ++ split_ws b.
Proof.
  intros Hc. induction a as [|x a IH].
  - cbn [app]. now rewrite split_ws_space.
  - cbn [app]. destruct (isspace x) eqn:Hx.
    + rewrite !split_ws_space by exact Hx. exact IH.
    + destruct a as [|y a].
      * cbn [app] in *. rewrite split_ws_end, split_ws_last by assumption.
        now rewrite IH.
      * cbn [app] in *. destruct (isspace y) eqn:Hy.
        -- rewrite !split_ws_end by assumption. now rewrite IH.
        -- rewrite !split_ws_more by assumption. rewrite IH.
           apply cons_head_app. now apply split_ws_starts.
Qed.

Lemma split_ws_all_ws (w : str) : all_ws w = true -> split_ws w = [].
Proof.
  induction w as [|c w IH]; [reflexivity|].
  cbn [all_ws forallb]. intros H. apply andb_prop in H.
  destruct H as [Hc Hw]. rewrite split_ws_space by exact Hc. now apply IH.
Qed.

Lemma split_ws_app_ws (x w : str) :
  all_ws w = true -> split_ws (x ++ w) = split_ws x.
Proof.
  intros Hw. destruct w as [|c w]; [now rewrite app_nil_r|].
  cbn [all_ws forallb] in Hw. apply andb_prop in Hw. destruct Hw as [Hc Hw].
  rewrite split_ws_app by exact Hc.
  rewrite (split_ws_all_ws w Hw). apply app_nil_r.
Qed.

Lemma split_ws_rstrip (s : str) : split_ws (rstrip s) = split_ws s.
Proof.
  destruct (rstrip_decompose s) as [w [Hw Hs]].
  rewrite Hs at 2. now rewrite split_ws_app_ws.
Qed.

Lemma split_ws_word (w : str) : is_word w -> split_ws w = [w].
Proof.
  intros [Hne Hw]. induction w as [|c w IH]; [contradiction|].
  cbn [forallb] in Hw. apply andb_prop in Hw. destruct Hw as [Hc Hw].
  apply negb_true_iff in Hc. destruct w as [|d w].
  - now apply split_ws_last.
  - assert (Hd : isspace d = false).
    { cbn [forallb] in Hw. apply andb_prop in Hw. destruct Hw as [Hd _].
      now apply negb_true_iff in Hd. }
    rewrite split_ws_more by assumption.
    rewrite IH by (discriminate || exact Hw). reflexivity.
Qed.

Lemma is_word_cons_head (c : char) (l : list str) :
  isspace c = false -> Forall is_word l -> Forall is_word (cons_head c l).
Proof.
  intros Hc Hl. destruct l as [|p l]; cbn [cons_head].
  - constructor; [|constructor]. split; [discriminate|].
    cbn [forallb]. now rewrite Hc.
  - inversion Hl as [|? ? [Hp1 Hp2] Hl']; subst. constructor; [|exact Hl'].
    split; [discriminate|]. cbn [forallb]. now rewrite Hc, Hp2.
Qed.

Lemma split_ws_words_are_words (s : str) : Forall is_word (split_ws s).
Proof.
  induction s as [|c s IH]; [constructor|].
  destruct (isspace c) eqn:Hc.
  - now rewrite split_ws_space.
  - destruct s as [|d s].
    + rewrite split_ws_last by exact Hc. constructor; [|constructor].
      split; [discriminate|]. cbn [forallb]. now rewrite Hc.
    + destruct (isspace d) eqn:Hd.
      * rewrite split_ws_end by assumption. constructor; [|exact IH].
        split; [discriminate|]. cbn [forallb]. now rewrite Hc.
      * rewrite split_ws_more by assumption.
        now apply is_word_cons_head.
Qed.

(** *** Wrapping keeps the words *)

Lemma wrap_contents_words (words : list str) :
  Forall is_word words ->
  forall cs cl,
    (cl = [] \/ exists x, cl = x ++ [sp]) ->
    flat_map split_ws (wrap_finish (fold_left wrap_content_step words (cs, cl)))
    = flat_map split_ws cs ++ split_ws cl ++ words.
Proof.
  induction 1 as [|w words Hw Hwords IH]; intros cs cl Hcl.
  - cbn [fold_left wrap_finish]. rewrite app_nil_r.
    destruct (truthy cl) eqn:Ht.
    + rewrite flat_map_app. cbn [flat_map]. rewrite app_nil_r.
      now rewrite split_ws_rstrip.
    + apply truthy_nil in Ht. subst cl. cbn. now rewrite app_nil_r.
  - cbn [fold_left]. unfold wrap_content_step at 2.
    assert (Hone : split_ws (w ++ [sp]) = [w]).
    { rewrite (split_ws_app w [] sp) by reflexivity.
      rewrite (split_ws_word w Hw). reflexivity. }
    destruct (len cl + len w + 1 <=? 66).
    + assert (Happ : split_ws (cl ++ w ++ [sp]) = split_ws cl ++ [w]).
      { destruct Hcl as [->|[x ->]].
        - exact Hone.
        - rewrite <- app_assoc. cbn [app].
          rewrite (split_ws_app x (w ++ [sp]) sp) by reflexivity.
          rewrite (split_ws_app x [] sp) by reflexivity.
          rewrite Hone. cbn [split_ws]. now rewrite app_nil_r. }
      rewrite IH.
      * rewrite Happ, <- !app_assoc. reflexivity.
      * right. exists (cl ++ w). now rewrite <- app_assoc.
    + rewrite IH.
      * rewrite flat_map_app. cbn [flat_map]. rewrite app_nil_r.
        rewrite split_ws_rstrip, Hone, <- !app_assoc. reflexivity.
      * right. now exists w.
Qed.

(** X13. Word wrapping loses, adds and reorders nothing: the rows printed
    for a line are box rows whose contents, read word by word, are the words
    of the line in order. *)
Theorem wrapping_keeps_the_words (line : str) :
  exists contents,
    wrap_rows (split_ws line) = map box_row contents
    /\ flat_map split_ws contents = split_ws line.
Proof.
  exists (wrap_contents (split_ws line)). split; [apply wrap_rows_contents|].
  unfold wrap_contents.
  rewrite (wrap_contents_words (split_ws line) (split_ws_words_are_words line));
    [reflexivity | now left].
Qed.

(** *** Width of the rows *)

Lemma len_copies (c : char) (n : Z) : len (copies c n) = Z.max 0 n.
Proof. unfold len, copies. rewrite repeat_length. lia. Qed.

Lemma len_box_row (s : str) : len (box_row s) = 4 + Z.max 66 (len s).
Proof.
  unfold box_row, ljust. rewrite !len_app, len_copies.
  change (len [bar; sp]) with 2. change (len [sp; bar]) with 2. lia.
Qed.

Lemma len_blank_row : len blank_row = 70.
Proof. reflexivity. Qed.

Lemma wrap_contents_fit (words : list str) :
  Forall (fun w => len w <= 66) words ->
  forall cs cl,
    Forall (fun c => len c <= 66) cs -> len (rstrip cl) <= 66 ->
    Forall (fun c => len c <= 66)
      (wrap_finish (fold_left wrap_content_step words (cs, cl))).
Proof.
  induction 1 as [|w words Hw _ IH]; intros cs cl Hcs Hcl.
  - cbn [fold_left wrap_finish]. destruct (truthy cl); [|exact Hcs].
    apply Forall_app. split; [exact Hcs|]. now constructor.
  - cbn [fold_left]. unfold wrap_content_step at 2.
    destruct (Z.leb_spec (len cl + len w + 1) 66) as [Hfit|_].
    + apply IH; [exact Hcs|].
      pose proof (len_rstrip (cl ++ w ++ [sp])) as H.
      rewrite !len_app in H. change (len [sp]) with 1 in H. lia.
    + apply IH.
      * apply Forall_app. split; [exact Hcs|]. now constructor.
      * rewrite rstrip_app_ws by reflexivity.
        pose proof (len_rstrip w). lia.
Qed.

Lemma wrap_rows_width (words : list str) :
  Forall (fun row => 70 <= len row) (wrap_rows words)
  /\ (Forall (fun w => len w <= 66) words ->
      Forall (fun row => len row = 70) (wrap_rows words)).
Proof.
  rewrite wrap_rows_contents. split.
  - apply Forall_forall. intros row Hrow. apply in_map_iff in Hrow.
    destruct Hrow as [c [<- _]]. rewrite len_box_row. lia.
  - intros Hw.
    assert (H : Forall (fun c => len c <= 66) (wrap_contents words))
      by (apply wrap_contents_fit; [exact Hw | constructor | cbn; lia]).
    rewrite Forall_forall in H.
    apply Forall_forall. intros row Hrow. apply in_map_iff in Hrow.
    destruct Hrow as [c [<- Hc]]. rewrite len_box_row.
    specialize (H c Hc). lia.
Qed.

Lemma plain_line_rows_width (line : str) :
  Forall (fun row => 70 <= len row) (plain_line_rows line)
  /\ (Forall (fun w => len w <= 66) (split_ws line) ->
      Forall (fun row => len row = 70) (plain_line_rows line)).
Proof.
  unfold plain_line_rows.
  destruct (Z.leb_spec (len line) 66) as [Hfit|_];
    [|apply wrap_rows_width].
  split; [|intros _]; constructor; try constructor; rewrite len_box_row; lia.
Qed.

Lemma line_rows_width (line : str) :
  Forall (fun row => 70 <= len row) (line_rows line)
  /\ (Forall (fun w => len w <= 66) (split_ws line) ->
      Forall (fun row => len row = 70) (line_rows line)).
Proof.
  unfold line_rows. destruct (negb (truthy (strip line)));
    [|apply plain_line_rows_width].
  split; [|intros _]; constructor; try constructor; rewrite len_blank_row; lia.
Qed.

Lemma flat_map_Forall {A B} (f : A -> list B) (P : B -> Prop) (l : list A) :
  Forall (fun a => Forall P (f a)) l -> Forall P (flat_map f l).
Proof.
  induction 1 as [|a l Ha _ IH]; [constructor|].
  cbn [flat_map]. apply Forall_app. now split.
Qed.

(** X14. The rows of the summary box, of the key-information box and of the
    question are never narrower than the 70 columns of the box frame, and
    they are all exactly 70 columns wide when no word of the text is longer
    than 66 characters. *)
Theorem box_rows_width (text : str) :
  (Forall (fun row => 70 <= len row) (summary_rows text)
   /\ Forall (fun row => 70 <= len row) (key_info_rows text)
   /\ Forall (fun row => 70 <= len row) (question_rows text))
  /\ (Forall (fun w => len w <= 66) (split_ws text) ->
      Forall (fun row => len row = 70) (question_rows text))
  /\ (Forall (fun line => Forall (fun w => len w <= 66) (split_ws line))
        (split_lines text) ->
      Forall (fun row => len row = 70) (summary_rows text)
      /\ Forall (fun row => len row = 70) (key_info_rows text)).
Proof.
  split; [split; [|split]|split].
  - apply flat_map_Forall, Forall_forall. intros line _.
    apply line_rows_width.
  - apply flat_map_Forall, Forall_forall. intros line _.
    apply plain_line_rows_width.
  - apply wrap_rows_width.
  - apply wrap_rows_width.
  - intros H. rewrite Forall_forall in H. split.
    + apply flat_map_Forall, Forall_forall. intros line Hl.
      apply line_rows_width. now apply H.
    + apply flat_map_Forall, Forall_forall. intros line Hl.
      apply plain_line_rows_width. now apply H.
Qed.

Lemma box_rows_width_witness :
  Forall (fun w => len w <= 66)
    (split_ws (lit "one two three" ++ copies 97%N 60 ++ lit " four"))
  /\ Forall (fun row => len row = 70)
       (question_rows (lit "one two three" ++ copies 97%N 60 ++ lit " four")).
Proof.
  assert (H : Forall (fun w => len w <= 66)
                (split_ws (lit "one two three" ++ copies 97%N 60
                             ++ lit " four"))).
  { vm_compute. repeat constructor; discriminate. }
  split; [exact H|].
  destruct (box_rows_width
              (lit "one two three" ++ copies 97%N 60 ++ lit " four"))
    as [_ [Hq _]].
  exact (Hq H).
Defined.

(** ** [simple_summarizer.py] *)

Lemma len_prefix (n : Z) (s : str) : 0 <= n -> len (prefix n s) = Z.min n (len s).
Proof. intros Hn. unfold len, prefix. rewrite length_firstn. lia. Qed.

(** X15. [summarize_document] sends the text whole when it has at most 48003
    characters and its first 48000 characters otherwise, so what it sends is
    a prefix of the text of at most 48003 characters. *)
Theorem document_sent_bound (text : str) :
  document_sent text
  = (if len text <=? 48003 then text else prefix 48000 text)
  /\ len (document_sent text) <= 48003
  /\ exists rest, text = document_sent text ++ rest.
Proof.
  unfold document_sent, count_tokens_estimate.
  assert (Hdiv : len text / 4 > 12000 <-> 48003 < len text).
  { pose proof (Z.div_mod (len text) 4 ltac:(lia)).
    pose proof (Z.mod_pos_bound (len text) 4 ltac:(lia)). lia. }
  destruct (Z.gtb_spec (len text / 4) 12000) as [Hgt|Hle];
    destruct (Z.leb_spec (len text) 48003) as [Hl|Hl]; try lia.
  - split; [reflexivity|]. split.
    + rewrite len_prefix by lia. lia.
    + exists (skipn (Z.to_nat 48000) text). unfold prefix.
      now rewrite firstn_skipn.
  - split; [reflexivity|]. split; [exact Hl|].
    exists []. now rewrite app_nil_r.
Qed.

Lemma str_eqb_eq (a b : str) : str_eqb a b = true <-> a = b.
Proof.
  revert b. induction a as [|x a IH]; intros [|y b]; cbn [str_eqb];
    try (split; [discriminate | discriminate]); [now split|].
  rewrite andb_true_iff, N.eqb_eq, IH.
  split; [intros [-> ->]; reflexivity | intros H; inversion H; now split].
Qed.

(** X16. A summary type that is none of [executive], [bullet] and
    [detailed] is served with the executive prompt: the request is the one
    for [executive]; the returned dictionary still carries the type as it
    was given. *)
Theorem unknown_summary_type_is_executive (complete : request -> reply)
  (text summary_type : str) :
  summary_type <> lit "executive" ->
  summary_type <> lit "bullet" ->
  summary_type <> lit "detailed" ->
  summarize_document_request text summary_type
  = summarize_document_request text (lit "executive")
  /\ forall c,
       complete (summarize_document_request text (lit "executive"))
       = Completed c ->
       summarize_document complete text summary_type
       = Summarized (content c) (total_tokens c) (usage_cost c) summary_type.
Proof.
  intros H1 H2 H3.
  assert (Hreq : summarize_document_request text summary_type
                 = summarize_document_request text (lit "executive")).
  { unfold summarize_document_request. cbv zeta. f_equal. f_equal.
    unfold prompts. cbn [dict_get].
    destruct (str_eqb (lit "executive") summary_type) eqn:E1;
      [apply str_eqb_eq in E1; now contradiction H1|].
    destruct (str_eqb (lit "bullet") summary_type) eqn:E2;
      [apply str_eqb_eq in E2; now contradiction H2|].
    destruct (str_eqb (lit "detailed") summary_type) eqn:E3;
      [apply str_eqb_eq in E3; now contradiction H3|].
    reflexivity. }
  split; [exact Hreq|].
  intros c Hc. unfold summarize_document. now rewrite Hreq, Hc.
Qed.

Lemma unknown_summary_type_is_executive_witness :
  summarize_document_request greeting (lit "haiku")
  = summarize_document_request greeting (lit "executive").
Proof.
  apply (unknown_summary_type_is_executive (fun _ => Raised []) greeting
           (lit "haiku")); discriminate.
Defined.

(** ** A long text without paragraphs *)

(** X17. A text of 12000 characters or more whose paragraphs are all empty,
    that is one made of blank-line separators only, yields no chunk: after
    the extraction no further call is made, and nothing is returned,
    whatever the service would have answered. *)
Theorem blank_long_text_fails (sv : service) (text : str) :
  12000 <= len text ->
  Forall (fun p => p = []) (split_nn text) ->
  returned (run_summarize sv text) = None
  /\ map at_site (call_log (run_summarize sv text)) = [ExtractKeyInfo].
Proof.
  intros Hlen Hblank.
  assert (Hnil : chunk_text text 10000 = []).
  { rewrite chunk_text_unfold. apply flush_fold_nil. now repeat split. }
  rewrite (run_summarize_long sv text Hlen). cbv zeta. rewrite Hnil.
  cbn. split; reflexivity.
Qed.

Lemma blank_long_text_fails_witness :
  12000 <= len (copies nl 12000)
  /\ returned (run_summarize (answers_except []) (copies nl 12000)) = None.
Proof.
  assert (H : 12000 <= len (copies nl 12000)) by (vm_compute; discriminate).
  split; [exact H|].
  apply (blank_long_text_fails (answers_except []) (copies nl 12000) H).
  apply Forall_forall. intros p Hp.
  assert (Hall : forallb (fun q => negb (truthy q))
                   (split_nn (copies nl 12000)) = true)
    by (vm_compute; reflexivity).
  rewrite forallb_forall in Hall. specialize (Hall p Hp).
  now destruct p.
Defined.
